(** * Orbits: verification of [src/main.py]

    The program keeps one anchor body (yellow) and two satellites (blue,
    white), advances the satellites by a fixed time step under gravity and
    hands the bodies to a renderer as circles.

    Python's [float] is kept behind an interface, [Number], with two
    instances: [Binary64], IEEE 754 double precision, which is what the
    program computes with, and [Exact], the real numbers, which is what the
    program's formulas mean when no rounding takes place.  The classes of
    [src/main.py] are written once, over the interface. *)

From Stdlib Require Import ZArith List Bool Lia.
From Stdlib Require PrimFloat FloatOps SpecFloat Uint63 FloatAxioms.
From Stdlib Require Import Reals Lra.
Import ListNotations.
Import (notations) PrimFloat.

#[local] Set Warnings "-inexact-float".

(** ** Exceptions and results *)

(** The exceptions the modelled code can raise. *)
Inductive exn : Set :=
| ZeroDivisionError
| IndexError
| OverflowError.

Inductive result (A : Type) : Type :=
| Ok (a : A)
| Raise (e : exn).

Arguments Ok {A} a.
Arguments Raise {A} e.

Definition rbind {A B : Type} (m : result A) (k : A -> result B) : result B :=
  match m with
  | Ok a => k a
  | Raise e => Raise e
  end.

Declare Scope result_scope.
Delimit Scope result_scope with result.
Notation "x <- m ; k" := (rbind m (fun x => k))
  (at level 61, m at next level, right associativity) : result_scope.

(** ** The arithmetic of Python floats *)

(** What a comparison of an [int] with a [float] sees of the float: Python
    compares the two exactly, so an integer [n] exceeds [x] when it exceeds
    the floor of [x]. *)
Inductive floor_t : Set :=
| Fin (z : Z)
| PosInf
| NegInf
| NotANumber.

Class Number : Type := {
  num : Type;
  (** an integer literal, or an integer-valued float literal; the integers
      of the program meet floats in their first operation and are read as
      floats *)
  lit : Z -> num;
  (** the literal [0.05] of [DEFAULT_DELTA_T] *)
  lit_0_05 : num;
  nadd : num -> num -> num;
  nsub : num -> num -> num;
  nmul : num -> num -> num;
  (** [x / d] for a divisor that is not zero *)
  nquot : num -> num -> num;
  nneg : num -> num;
  (** [x == 0.0] *)
  nis_zero : num -> bool;
  neqb : num -> num -> bool;
  nleb : num -> num -> bool;
  nltb : num -> num -> bool;
  (** [x ** 0.5] *)
  pow_half : num -> num;
  (** [x ** 3], when it is in range *)
  cube : num -> option num;
  nfloor : num -> floor_t
}.

Declare Scope num_scope.
Delimit Scope num_scope with num.
Notation "a + b" := (nadd a b) : num_scope.
Notation "a - b" := (nsub a b) : num_scope.
Notation "a * b" := (nmul a b) : num_scope.
Notation "- a" := (nneg a) : num_scope.

(** *** IEEE 754 binary64 *)

Module Binary64.

Import PrimFloat.

(** The float of an integer; exact below [2^53], which covers every
    literal of the program. *)
Definition of_Z (z : Z) : float :=
  match z with
  | Z0 => zero
  | Zpos _ => of_uint63 (Uint63.of_Z z)
  | Zneg p => opp (of_uint63 (Uint63.of_Z (Zpos p)))
  end.

Definition float_is_zero (x : float) : bool :=
  eqb x zero.

(** Modelled from the spec: Python's [x ** 0.5] calls the C library's
    [pow], which is not part of the repository; section 4.1 of the spec
    reads it as the square root, [magnitude(v) = sqrt(x²+y²)].  A zero
    base gives [0.0], as CPython's [float_pow] returns before calling
    [pow].  The program raises no negative base to this power. *)
Definition float_pow_half (x : float) : float :=
  if float_is_zero x then zero else sqrt x.

(** Modelled from the spec: Python's [x ** 3], again the C library's
    [pow]; section 4.4 of the spec reads it as the cube [|d|^3].  The cube
    of a finite base can be out of range, and one that underflows is
    [0.0]. *)
Definition float_cube (x : float) : option float :=
  let c := mul (mul x x) x in
  if is_infinity c && negb (is_infinity x) then None else Some c.

(** The floor of [±m·2^e]; shifting left by a negative [e] is the floor
    division by [2^(-e)]. *)
Definition float_floor (x : float) : floor_t :=
  match FloatOps.Prim2SF x with
  | SpecFloat.S754_zero _ => Fin 0
  | SpecFloat.S754_infinity false => PosInf
  | SpecFloat.S754_infinity true => NegInf
  | SpecFloat.S754_nan => NotANumber
  | SpecFloat.S754_finite s m e =>
      Fin (Z.shiftl (if s then Z.neg m else Z.pos m) e)
  end.

#[export] Instance number : Number := {|
  num := float;
  lit := of_Z;
  lit_0_05 := 0.05%float;
  nadd := add;
  nsub := sub;
  nmul := mul;
  nquot := div;
  nneg := opp;
  nis_zero := float_is_zero;
  neqb := eqb;
  nleb := leb;
  nltb := ltb;
  pow_half := float_pow_half;
  cube := float_cube;
  nfloor := float_floor
|}.

End Binary64.

(** *** Exact arithmetic *)

Module Exact.

Definition Reqb (a b : R) : bool := if Req_dec_T a b then true else false.
Definition Rleb (a b : R) : bool := if Rle_dec a b then true else false.
Definition Rltb (a b : R) : bool := if Rlt_dec a b then true else false.

#[export] Instance number : Number := {|
  num := R;
  lit := IZR;
  lit_0_05 := (5 / 100)%R;
  nadd := Rplus;
  nsub := Rminus;
  nmul := Rmult;
  nquot := Rdiv;
  nneg := Ropp;
  nis_zero := fun x => Reqb x 0;
  neqb := Reqb;
  nleb := Rleb;
  nltb := Rltb;
  pow_half := sqrt;
  cube := fun x => Some (x * x * x)%R;
  nfloor := fun x => Fin (Int_part x)
|}.

End Exact.

(** ** The classes of [src/main.py] *)

Section Orbits.

Context {N : Number}.

Local Open Scope num_scope.
Local Open Scope result_scope.

(** [x / d] on floats: Python raises when the divisor compares equal to
    zero. *)
Definition truediv (x d : num) : result num :=
  if nis_zero d then Raise ZeroDivisionError else Ok (nquot x d).

(** [x ** 3] on floats: Python raises when the result is out of range. *)
Definition pow_3 (x : num) : result num :=
  match cube x with
  | Some c => Ok c
  | None => Raise OverflowError
  end.

(** [n > x] for an [int] [n], here always a list length. *)
Definition len_gt (n : nat) (x : num) : bool :=
  match nfloor x with
  | Fin z => (z <? Z.of_nat n)%Z
  | NegInf => true
  | PosInf => false
  | NotANumber => false
  end.

(** *** Vector *)

Record Vector : Type := mkVector { x : num; y : num }.

Definition Vector_add (self other : Vector) : Vector :=
  mkVector (x self + x other) (y self + y other).

Definition Vector_sub (self other : Vector) : Vector :=
  mkVector (x self - x other) (y self - y other).

Definition Vector_mul (self : Vector) (c : num) : Vector :=
  mkVector (c * x self) (c * y self).

Definition Vector_rmul (self : Vector) (c : num) : Vector :=
  Vector_mul self c.

Definition Vector_truediv (self : Vector) (d : num) : result Vector :=
  qx <- truediv (x self) d ;
  qy <- truediv (y self) d ;
  Ok (mkVector qx qy).

Definition Vector_abs (self : Vector) : num :=
  pow_half (x self * x self + y self * y self).

(** The [==] of the dataclass: the fields compare equal.  That Python
    also takes an object to equal itself is not modelled: a NaN differs
    from itself here. *)
Definition Vector_eq (a b : Vector) : bool :=
  neqb (x a) (x b) && neqb (y a) (y b).

(** *** BBox *)

Record BBox : Type := mkBBox { min : Vector; max : Vector }.

Definition as_tuple (self : BBox) : num * num * num * num :=
  (x (min self), y (min self), x (max self), y (max self)).

Definition BBox_add (self : BBox) (d : Vector) : BBox :=
  mkBBox (Vector_add (min self) d) (Vector_add (max self) d).

(** [d + box]: [Vector.__add__] declines a [BBox], so Python calls this. *)
Definition BBox_radd (self : BBox) (d : Vector) : BBox :=
  BBox_add self d.

Definition BBox_eq (a b : BBox) : bool :=
  Vector_eq (min a) (min b) && Vector_eq (max a) (max b).

(** *** Circle and Curve *)

Record Circle : Type := mkCircle { o : Vector; r : num }.

Definition bbox (self : Circle) : BBox :=
  mkBBox
    (mkVector (x (o self) - r self) (y (o self) - r self))
    (mkVector (x (o self) + r self) (y (o self) + r self)).

Definition Circle_add (self : Circle) (d : Vector) : Circle :=
  mkCircle (Vector_add (o self) d) (r self).

Definition Circle_radd (self : Circle) (d : Vector) : Circle :=
  Circle_add self d.

Definition Circle_eq (a b : Circle) : bool :=
  Vector_eq (o a) (o b) && neqb (r a) (r b).

Record Curve : Type := mkCurve { points : list Vector }.

Definition Curve_add (self : Curve) (d : Vector) : Curve :=
  mkCurve (map (fun p => Vector_add p d) (points self)).

Definition Curve_radd (self : Curve) (d : Vector) : Curve :=
  Curve_add self d.

(** Tuples compare equal when they have the same length and equal
    items. *)
Fixpoint points_eq (l1 l2 : list Vector) : bool :=
  match l1, l2 with
  | [], [] => true
  | p1 :: t1, p2 :: t2 => Vector_eq p1 p2 && points_eq t1 t2
  | _, _ => false
  end.

Definition Curve_eq (a b : Curve) : bool :=
  points_eq (points a) (points b).

(** *** Shape and Scene *)

Inductive Shape : Type :=
| ACircle (c : Circle)
| ACurve (c : Curve).

Definition Shape_add (s : Shape) (d : Vector) : Shape :=
  match s with
  | ACircle c => ACircle (Circle_add c d)
  | ACurve c => ACurve (Curve_add c d)
  end.

Definition Shape_radd (s : Shape) (d : Vector) : Shape :=
  match s with
  | ACircle c => ACircle (Circle_radd c d)
  | ACurve c => ACurve (Curve_radd c d)
  end.

Definition Shape_eq (a b : Shape) : bool :=
  match a, b with
  | ACircle c1, ACircle c2 => Circle_eq c1 c2
  | ACurve c1, ACurve c2 => Curve_eq c1 c2
  | _, _ => false
  end.

Record Scene : Type := mkScene { shapes : list Shape }.

(** *** Canvas: what the renderer is asked to draw *)

Inductive Draw : Type :=
| create_oval (t : num * num * num * num)
| create_line (x1 y1 x2 y2 : num).

(** [(self.o + c.bbox).as_tuple]: the sum is [BBox.__radd__]. *)
Definition render_circle (canvas_o : Vector) (c : Circle) : list Draw :=
  [create_oval (as_tuple (BBox_radd (bbox c) canvas_o))].

Fixpoint pairwise (l : list Vector) : list (Vector * Vector) :=
  match l with
  | p1 :: (p2 :: _) as t => (p1, p2) :: pairwise t
  | _ => []
  end.

Definition render_curve (canvas_o : Vector) (c : Curve) : list Draw :=
  map (fun '(p1, p2) =>
         let shifted_p1 := Vector_add canvas_o p1 in
         let shifted_p2 := Vector_add canvas_o p2 in
         create_line (x shifted_p1) (y shifted_p1)
                     (x shifted_p2) (y shifted_p2))
      (pairwise (points c)).

Definition render_shape (canvas_o : Vector) (s : Shape) : list Draw :=
  match s with
  | ACircle c => render_circle canvas_o c
  | ACurve c => render_curve canvas_o c
  end.

Definition render (canvas_o : Vector) (scene : Scene) : list Draw :=
  flat_map (render_shape canvas_o) (shapes scene).

(** *** Universe *)

Definition G : num := lit 1.

Record Universe : Type := mkUniverse {
  yellow_r : num;
  yellow_m : num;
  yellow_p : Vector;
  blue_r : num;
  blue_m : num;
  blue_p : Vector;
  blue_v : Vector;
  blue_trail : list Vector;
  white_r : num;
  white_m : num;
  white_p : Vector;
  white_v : Vector;
  white_trail : list Vector
}.

(** [Universe.__init__]; the two divisions can raise. *)
Definition Universe_init : result Universe :=
  let yellow_r := lit 50 in
  let yellow_m := lit 5000000 in
  let yellow_p := mkVector (lit 0) (lit 0) in
  let blue_r := lit 15 in
  let blue_m := lit 3000 in
  let blue_p := mkVector (lit 200) (lit 0) in
  qb <- truediv (G * yellow_m) (Vector_abs (Vector_sub blue_p yellow_p)) ;
  let blue_v := mkVector (lit 0) (- pow_half qb) in
  let white_r := lit 5 in
  let white_m := lit 100 in
  let white_p := mkVector (lit 200) (lit 30) in
  qw <- truediv (G * yellow_m) (Vector_abs (Vector_sub white_p yellow_p)) ;
  let white_v := mkVector (lit 0) (- pow_half qw) in
  Ok (mkUniverse yellow_r yellow_m yellow_p
                 blue_r blue_m blue_p blue_v []
                 white_r white_m white_p white_v []).

Definition scene (self : Universe) : Scene :=
  mkScene
    [ACircle (mkCircle (yellow_p self) (yellow_r self));
     ACircle (mkCircle (blue_p self) (blue_r self));
     ACircle (mkCircle (white_p self) (white_r self))].

(** Assignments to the six attributes [update] writes. *)
Definition with_blue_trail (u : Universe) (l : list Vector) : Universe :=
  mkUniverse (yellow_r u) (yellow_m u) (yellow_p u)
             (blue_r u) (blue_m u) (blue_p u) (blue_v u) l
             (white_r u) (white_m u) (white_p u) (white_v u) (white_trail u).

Definition with_blue_p (u : Universe) (p : Vector) : Universe :=
  mkUniverse (yellow_r u) (yellow_m u) (yellow_p u)
             (blue_r u) (blue_m u) p (blue_v u) (blue_trail u)
             (white_r u) (white_m u) (white_p u) (white_v u) (white_trail u).

Definition with_blue_v (u : Universe) (v : Vector) : Universe :=
  mkUniverse (yellow_r u) (yellow_m u) (yellow_p u)
             (blue_r u) (blue_m u) (blue_p u) v (blue_trail u)
             (white_r u) (white_m u) (white_p u) (white_v u) (white_trail u).

Definition with_white_trail (u : Universe) (l : list Vector) : Universe :=
  mkUniverse (yellow_r u) (yellow_m u) (yellow_p u)
             (blue_r u) (blue_m u) (blue_p u) (blue_v u) (blue_trail u)
             (white_r u) (white_m u) (white_p u) (white_v u) l.

Definition with_white_p (u : Universe) (p : Vector) : Universe :=
  mkUniverse (yellow_r u) (yellow_m u) (yellow_p u)
             (blue_r u) (blue_m u) (blue_p u) (blue_v u) (blue_trail u)
             (white_r u) (white_m u) p (white_v u) (white_trail u).

Definition with_white_v (u : Universe) (v : Vector) : Universe :=
  mkUniverse (yellow_r u) (yellow_m u) (yellow_p u)
             (blue_r u) (blue_m u) (blue_p u) (blue_v u) (blue_trail u)
             (white_r u) (white_m u) (white_p u) v (white_trail u).

(** Methods of a [Universe] run on the object and may raise; what they
    have written before raising stays written. *)
Definition M (A : Type) : Type := Universe -> Universe * result A.

Definition ret {A : Type} (a : A) : M A := fun u => (u, Ok a).

Definition bind {A B : Type} (m : M A) (k : A -> M B) : M B :=
  fun u =>
    match m u with
    | (u', Ok a) => k a u'
    | (u', Raise e) => (u', Raise e)
    end.

Definition get {A : Type} (f : Universe -> A) : M A :=
  fun u => (u, Ok (f u)).

Definition put {A : Type} (w : Universe -> A -> Universe) (a : A) : M unit :=
  fun u => (w u a, Ok tt).

Definition eval {A : Type} (e : result A) : M A := fun u => (u, e).

Notation "x <- m ;; k" := (bind m (fun x => k))
  (at level 61, m at next level, right associativity).
Notation "m ;; k" := (bind m (fun _ => k))
  (at level 61, right associativity).

(** [while len(trail) > 2.0 / delta_t: trail.pop(0)], on the list; each
    turn evaluates the quotient again and pops one item. *)
Fixpoint pop_while (delta_t : num) (trail : list Vector)
  : list Vector * result unit :=
  match truediv (lit 2) delta_t with
  | Raise e => (trail, Raise e)
  | Ok bound =>
      if len_gt (length trail) bound then
        match trail with
        | [] => ([], Raise IndexError)
        | _ :: rest => pop_while delta_t rest
        end
      else (trail, Ok tt)
  end.

Definition pop_blue_trail (delta_t : num) : M unit :=
  fun u =>
    let (l, e) := pop_while delta_t (blue_trail u) in (with_blue_trail u l, e).

Definition pop_white_trail (delta_t : num) : M unit :=
  fun u =>
    let (l, e) := pop_while delta_t (white_trail u) in
    (with_white_trail u l, e).

(** The expression [G * m * d / (abs(d) ** 3) * delta_t], which [update]
    evaluates three times: [G * m] times the vector is [Vector.__rmul__],
    then the power, the division and [Vector.__mul__]. *)
Definition attraction (m : num) (d : Vector) (delta_t : num)
  : result Vector :=
  let gmd := Vector_rmul d (G * m) in
  cube <- pow_3 (Vector_abs d) ;
  q <- Vector_truediv gmd cube ;
  Ok (Vector_mul q delta_t).

Definition update (delta_t : num) : M unit :=
  p <- get blue_p ;;
  trail <- get blue_trail ;;
  put with_blue_trail (trail ++ [p]) ;;
  pop_blue_trail delta_t ;;

  p <- get blue_p ;;
  v <- get blue_v ;;
  put with_blue_p (Vector_add p (Vector_mul v delta_t)) ;;
  p <- get blue_p ;;
  yp <- get yellow_p ;;
  let d := Vector_sub p yp in
  v <- get blue_v ;;
  ym <- get yellow_m ;;
  a <- eval (attraction ym d delta_t) ;;
  put with_blue_v (Vector_sub v a) ;;

  p <- get white_p ;;
  trail <- get white_trail ;;
  put with_white_trail (trail ++ [p]) ;;
  pop_white_trail delta_t ;;

  p <- get white_p ;;
  v <- get white_v ;;
  put with_white_p (Vector_add p (Vector_mul v delta_t)) ;;
  p <- get white_p ;;
  yp <- get yellow_p ;;
  let dyellow := Vector_sub p yp in
  bp <- get blue_p ;;
  let dblue := Vector_sub p bp in
  v <- get white_v ;;
  ym <- get yellow_m ;;
  ay <- eval (attraction ym dyellow delta_t) ;;
  bm <- get blue_m ;;
  ab <- eval (attraction bm dblue delta_t) ;;
  put with_white_v (Vector_sub (Vector_sub v ay) ab).

(** [n] calls of [update], as the driver makes them; the first exception
    ends the run. *)
Fixpoint updates (n : nat) (delta_t : num) : M unit :=
  match n with
  | O => ret tt
  | S k => update delta_t ;; updates k delta_t
  end.

End Orbits.

(** ** The canvas and the driver *)

(** What a turn of the driver raises: an exception of the program's own
    arithmetic, or what a call of Tk or of [sleep] raises. *)
Inductive raised : Set :=
| of_program (e : exn)
| of_tk
| of_sleep.

Inductive outcome (A : Type) : Type :=
| Returns (a : A)
| Raises (r : raised).

Arguments Returns {A} a.
Arguments Raises {A} r.

Section Driver.

Context {N : Number}.

Local Open Scope num_scope.
Local Open Scope result_scope.

Definition DEFAULT_DELTA_T : num := lit_0_05.

Definition MAX_DURATION : num := lit 120.

(** [int(x)] on a float, which truncates towards zero; [None] when Python
    raises, for an infinity or a NaN. *)
Definition int (x : num) : option Z :=
  match nfloor x, nfloor (- x) with
  | Fin below, Fin above => Some (if (0 <=? below)%Z then below else (- above)%Z)
  | _, _ => None
  end.

(** [int(MAX_DURATION / DEFAULT_DELTA_T)]; [None] when the expression
    raises and the module does not load. *)
Definition MAX_FRAMES : option Z :=
  match truediv MAX_DURATION DEFAULT_DELTA_T with
  | Ok q => int q
  | Raise _ => None
  end.

(** A [Canvas]: the size, the view offset [o] and the items on the Tk
    canvas, oldest first. *)
Record Canvas : Type := mkCanvas {
  w : num;
  h : num;
  canvas_o : Vector;
  items : list Draw
}.

(** The world outside the program, which the program does not determine:
    [tk n] tells whether the Tk call number [n] of a run returns (it raises
    once the window is closed), [sleep k d] whether the call [sleep(d)]
    returns when [frame_num] is [k] (it raises for a negative [d]). *)
Variable tk : nat -> bool.
Variable sleep : Z -> num -> bool.

(** One call of a method of Tk's canvas, the call number [n]: when it
    returns it has changed the items by [f]. *)
Definition tk_call (f : list Draw -> list Draw) (self : Canvas) (n : nat)
  : Canvas * nat * outcome unit :=
  if tk n then
    (mkCanvas (w self) (h self) (canvas_o self) (f (items self)), S n,
     Returns tt)
  else (self, S n, Raises of_tk).

(** The calls of [create_oval] and [create_line], in order, up to the
    first that raises. *)
Fixpoint tk_create (requests : list Draw) (self : Canvas) (n : nat)
  : Canvas * nat * outcome unit :=
  match requests with
  | [] => (self, n, Returns tt)
  | d :: rest =>
      match tk_call (fun l => l ++ [d]) self n with
      | (self', n', Returns _) => tk_create rest self' n'
      | (self', n', Raises r) => (self', n', Raises r)
      end
  end.

Definition Canvas_render (self : Canvas) (n : nat) (scene : Scene)
  : Canvas * nat * outcome unit :=
  tk_create (render (canvas_o self) scene) self n.

Definition Canvas_clear (self : Canvas) (n : nat)
  : Canvas * nat * outcome unit :=
  tk_call (fun _ => []) self n.

(** [loop(canvas, frame_num)] on the module's [universe], from the Tk call
    number [n]; [max_frames] is the value of [MAX_FRAMES].  When a Tk call
    raises, the universe is not updated; what is drawn before [update]
    raises stays drawn. *)
Definition loop (max_frames : Z) (canvas : Canvas) (n : nat) (frame_num : Z)
           (universe : Universe)
  : Canvas * nat * Universe * outcome bool :=
  match truediv (w canvas) (lit 2) with
  | Raise e => (canvas, n, universe, Raises (of_program e))
  | Ok half_w =>
    match truediv (h canvas) (lit 2) with
    | Raise e => (canvas, n, universe, Raises (of_program e))
    | Ok half_h =>
      let canvas1 :=
        mkCanvas (w canvas) (h canvas)
                 (mkVector (half_w - x (blue_p universe))
                           (half_h - y (blue_p universe)))
                 (items canvas) in
      match Canvas_render canvas1 n (scene universe) with
      | (canvas2, n2, Raises r) => (canvas2, n2, universe, Raises r)
      | (canvas2, n2, Returns _) =>
        match update DEFAULT_DELTA_T universe with
        | (universe', Raise e) =>
            (canvas2, n2, universe', Raises (of_program e))
        | (universe', Ok _) =>
            (canvas2, n2, universe', Returns (frame_num <? max_frames)%Z)
        end
      end
    end
  end.

(** The [while] of [run], from a given [frame_num] and Tk call number:
    a turn of [loop], then [frame_num += 1], [sleep(delta_t)] and
    [canvas.clear()].  [None] when the turns allowed by [fuel] do not
    reach the end. *)
Fixpoint run_from (fuel : nat) (max_frames : Z) (canvas : Canvas) (n : nat)
         (delta_t : num) (frame_num : Z) (universe : Universe)
  : Canvas * nat * Universe * option (outcome unit) :=
  match fuel with
  | O => (canvas, n, universe, None)
  | S fuel' =>
      match loop max_frames canvas n frame_num universe with
      | (canvas', n', universe', Raises r) =>
          (canvas', n', universe', Some (Raises r))
      | (canvas', n', universe', Returns false) =>
          (canvas', n', universe', Some (Returns tt))
      | (canvas', n', universe', Returns true) =>
          let frame_num' := (frame_num + 1)%Z in
          if sleep frame_num' delta_t then
            match Canvas_clear canvas' n' with
            | (canvas'', n'', Returns _) =>
                run_from fuel' max_frames canvas'' n'' delta_t frame_num'
                         universe'
            | (canvas'', n'', Raises r) =>
                (canvas'', n'', universe', Some (Raises r))
            end
          else (canvas', n', universe', Some (Raises of_sleep))
      end
  end.

Definition run (fuel : nat) (max_frames : Z) (canvas : Canvas)
           (delta_t : num) (universe : Universe)
  : Canvas * nat * Universe * option (outcome unit) :=
  run_from fuel max_frames canvas 0 delta_t 0%Z universe.

(** What one turn of [loop] leaves on the canvas when every call returns:
    the view moved so that blue sits at the middle, and the scene drawn
    over what was there. *)
Definition view (canvas : Canvas) (universe : Universe) : Vector :=
  mkVector (nquot (w canvas) (lit 2) - x (blue_p universe))
           (nquot (h canvas) (lit 2) - y (blue_p universe)).

Definition frame (canvas : Canvas) (universe : Universe) : Canvas :=
  mkCanvas (w canvas) (h canvas) (view canvas universe)
           (items canvas ++ render (view canvas universe) (scene universe)).

(** What [run] raises when [update] does. *)
Definition of_result (e : result unit) : outcome unit :=
  match e with
  | Ok _ => Returns tt
  | Raise e => Raises (of_program e)
  end.

End Driver.

(** ** Vocabulary of the properties *)

Section Vocabulary.

Context {N : Number}.

(** The last [k] items of a list, oldest first. *)
Definition lastn {A : Type} (k : nat) (l : list A) : list A :=
  skipn (length l - k) l.

(** The universes the first [n] calls of a run start from, in order. *)
Fixpoint states (n : nat) (delta_t : num) (u : Universe) : list Universe :=
  match n with
  | O => []
  | S k => u :: states k delta_t (fst (update delta_t u))
  end.

(** The universes a program can see: the constructed one, and what any
    call of [update] leaves behind, raised exception or not. *)
Inductive reachable : Universe -> Prop :=
| reach_init : forall u, Universe_init = Ok u -> reachable u
| reach_update : forall delta_t u,
    reachable u -> reachable (fst (update delta_t u)).

(** The attributes of a universe that [update] does not assign. *)
Definition fixed_part (u : Universe)
  : num * num * Vector * (num * num) * (num * num) :=
  (yellow_r u, yellow_m u, yellow_p u,
   (blue_r u, blue_m u), (white_r u, white_m u)).

(** Where [update] puts a satellite: one step along its velocity. *)
Definition moved (p v : Vector) (delta_t : num) : Vector :=
  Vector_add p (Vector_mul v delta_t).

(** The three differences of a call, [d] of blue and [dyellow] and [dblue]
    of white, taken between the positions the satellites have moved to. *)
Definition blue_d (u : Universe) (delta_t : num) : Vector :=
  Vector_sub (moved (blue_p u) (blue_v u) delta_t) (yellow_p u).

Definition white_dyellow (u : Universe) (delta_t : num) : Vector :=
  Vector_sub (moved (white_p u) (white_v u) delta_t) (yellow_p u).

Definition white_dblue (u : Universe) (delta_t : num) : Vector :=
  Vector_sub (moved (white_p u) (white_v u) delta_t)
             (moved (blue_p u) (blue_v u) delta_t).

(** The division of [attraction] has a zero divisor. *)
Definition zero_cube (d : Vector) : Prop :=
  exists c, pow_3 (Vector_abs d) = Ok c /\ nis_zero c = true.

(** Following the spec's words (section 4.4, step 3): the velocity of a
    body at [p] after the terms [-G * mass_other * d / |d|^3 * Δt] of all
    the [others] in turn, [d] being [p] minus the other's position. *)
Fixpoint spec_velocity (v p : Vector) (others : list (num * Vector))
         (delta_t : num) : result Vector :=
  match others with
  | [] => Ok v
  | (m, q) :: rest =>
      (a <- attraction m (Vector_sub p q) delta_t ;
       spec_velocity (Vector_sub v a) p rest delta_t)%result
  end.

(** The test [r == Ok v], with the [==] of Python on the vector. *)
Definition is_Ok_Vector (v : Vector) (r : result Vector) : bool :=
  match r with
  | Ok w => Vector_eq w v
  | Raise _ => false
  end.

End Vocabulary.

(** ** Vocabulary of the further properties *)

Section MoreVocabulary.

Context {N : Number}.

Local Open Scope num_scope.

(** The quotient [2.0 / delta_t] is below zero. *)
Definition below_zero (q : num) : Prop :=
  nfloor q = NegInf \/ exists z, nfloor q = Fin z /\ (z < 0)%Z.

(** The quotient [2.0 / delta_t] exceeds every length, or is a NaN. *)
Definition above_all (q : num) : Prop :=
  nfloor q = PosInf \/ nfloor q = NotANumber.

(** The line item between two points. *)
Definition segment (ends : Vector * Vector) : Draw :=
  create_line (x (fst ends)) (y (fst ends)) (x (snd ends)) (y (snd ends)).


End MoreVocabulary.

(** ** Vocabulary of rounding *)

(** Binary64's sums and differences are specified by the rounding of an
    integer mantissa at an exponent, [SpecFloat.binary_normalize]; what
    follows names the parts of this rounding. *)
Module Rounding.

Import SpecFloat.

Local Open Scope Z_scope.

(** The exponent of a binary64 mantissa in the binade of [2^e]. *)
Abbreviation fexp64 := (SpecFloat.fexp 53 1024).

(** What a shift record says of the number [N] it was shifted from, with
    [T] the power of two shifted out. *)
Definition shr_inv (mrs : shr_record) (N T : Z) : Prop :=
  0 <= shr_m mrs /\
  exists rho,
    N = shr_m mrs * T + rho /\ 0 <= rho < T /\
    match loc_of_shr_record mrs with
    | loc_Exact => rho = 0
    | loc_Inexact Lt => 0 < rho /\ 2 * rho < T
    | loc_Inexact Eq => 2 * rho = T
    | loc_Inexact Gt => T < 2 * rho
    end.

(** The mantissa and exponent that [binary_round] computes, before the
    test for overflow. *)
Definition rnd (p : positive) (e : Z) : Z * Z :=
  let '(mz, ez) := shl_align p e (fexp64 (Zpos (digits2_pos p) + e)) in
  let '(mrs', e') := shr_fexp 53 1024 (Zpos mz) ez loc_Exact in
  let '(mrs'', e'') :=
    shr_fexp 53 1024
      (round_nearest_even (shr_m mrs') (loc_of_shr_record mrs')) e'
      loc_Exact in
  (shr_m mrs'', e'').

(** [2^t] in units of [2^E0]. *)
Definition scale (E0 t : Z) : Z := 2 ^ (t - E0).

(** The rounded pair of [p * 2^e]: it is canonical, and the value
    [M * 2^E] is a multiple [n] of the unit [2^f] of [p]'s binade that lies
    within half a unit of [p * 2^e]; values are counted in units of
    [2^E0]. *)
Definition rnd_ok (p : positive) (e M E : Z) : Prop :=
  let f := fexp64 (Zpos (digits2_pos p) + e) in
  let E0 := Z.min e (-1074) in
  0 <= M /\ f <= E /\
  (0 < M -> fexp64 (Zdigits2 M + E) = E) /\
  exists n,
    0 <= n /\
    M * scale E0 E = n * scale E0 f /\
    2 * Z.abs (n * scale E0 f - Zpos p * scale E0 e) <= scale E0 f.

End Rounding.

(** ** The program on binary64 *)

Module OnBinary64.

Import (notations) PrimFloat.

#[export] Existing Instance Binary64.number | 0.

(** The module-level [universe: Universe = Universe()]: what the
    constructor returns, with the two speeds it computes written out. *)
Definition universe : Universe :=
  mkUniverse 50%float 5000000%float (mkVector 0%float 0%float)
             15%float 3000%float (mkVector 200%float 0%float)
             (mkVector 0%float (-158.11388300841898)%float) []
             5%float 100%float (mkVector 200%float 30%float)
             (mkVector 0%float (-157.2367922011494)%float) [].

Definition DEFAULT_DELTA_T : num := lit_0_05.

(** Neither coordinate is a NaN. *)
Definition no_nan (p : Vector) : bool :=
  negb (PrimFloat.is_nan (x p)) && negb (PrimFloat.is_nan (y p)).

End OnBinary64.

(** ** Properties of the code *)

Section Unfolding.

Context {N : Number}.

(** *** One call of [update], step by step *)

Lemma update_unfold (delta_t : num) (u : Universe) :
  update delta_t u =
  let (l1, e1) := pop_while delta_t (blue_trail u ++ [blue_p u]) in
  let u1 := with_blue_trail u l1 in
  match e1 with
  | Raise e => (u1, Raise e)
  | Ok _ =>
    let u2 := with_blue_p u1 (moved (blue_p u) (blue_v u) delta_t) in
    match attraction (yellow_m u) (blue_d u delta_t) delta_t with
    | Raise e => (u2, Raise e)
    | Ok a =>
      let u3 := with_blue_v u2 (Vector_sub (blue_v u) a) in
      let (l2, e2) := pop_while delta_t (white_trail u ++ [white_p u]) in
      let u4 := with_white_trail u3 l2 in
      match e2 with
      | Raise e => (u4, Raise e)
      | Ok _ =>
        let u5 := with_white_p u4 (moved (white_p u) (white_v u) delta_t) in
        match attraction (yellow_m u) (white_dyellow u delta_t) delta_t with
        | Raise e => (u5, Raise e)
        | Ok ay =>
          match attraction (blue_m u) (white_dblue u delta_t) delta_t with
          | Raise e => (u5, Raise e)
          | Ok ab =>
            (with_white_v u5 (Vector_sub (Vector_sub (white_v u) ay) ab),
             Ok tt)
          end
        end
      end
    end
  end.
Proof.
  destruct u.
  unfold update, bind, get, put, eval, pop_blue_trail, pop_white_trail,
    blue_d, white_dyellow, white_dblue, moved.
  cbn -[attraction pop_while].
  repeat match goal with
    | |- context [pop_while ?t ?l] =>
        destruct (pop_while t l) as [? [[]|?]]; cbn -[attraction pop_while]
    | |- context [attraction ?m ?d ?t] =>
        destruct (attraction m d t); cbn -[attraction pop_while]
    end; reflexivity.
Qed.

End Unfolding.

(** The same case analysis, for the proofs below. *)
Ltac update_cases delta_t u :=
  rewrite (update_unfold delta_t u);
  let l1 := fresh "l1" in let l2 := fresh "l2" in
  let a := fresh "a" in let ay := fresh "ay" in let ab := fresh "ab" in
  let e := fresh "e" in
  destruct (pop_while delta_t (blue_trail u ++ [blue_p u]))
    as [l1 [[]|e]] eqn:Hpop_blue; cbv zeta;
  [ destruct (attraction (yellow_m u) (blue_d u delta_t) delta_t)
      as [a|e] eqn:Hblue;
    [ destruct (pop_while delta_t (white_trail u ++ [white_p u]))
        as [l2 [[]|e]] eqn:Hpop_white; cbv zeta;
      [ destruct (attraction (yellow_m u) (white_dyellow u delta_t) delta_t)
          as [ay|e] eqn:Hyellow;
        [ destruct (attraction (blue_m u) (white_dblue u delta_t) delta_t)
            as [ab|e] eqn:Hwhite_blue | ] | ] | ] | ].

Section Facts.

Context {N : Number}.

Local Open Scope num_scope.

(** A call that returns, inverted. *)
Lemma update_Ok (delta_t : num) (u u' : Universe) :
  update delta_t u = (u', Ok tt) ->
  exists l1 l2 a ay ab,
    pop_while delta_t (blue_trail u ++ [blue_p u]) = (l1, Ok tt) /\
    pop_while delta_t (white_trail u ++ [white_p u]) = (l2, Ok tt) /\
    attraction (yellow_m u) (blue_d u delta_t) delta_t = Ok a /\
    attraction (yellow_m u) (white_dyellow u delta_t) delta_t = Ok ay /\
    attraction (blue_m u) (white_dblue u delta_t) delta_t = Ok ab /\
    u' = mkUniverse (yellow_r u) (yellow_m u) (yellow_p u)
           (blue_r u) (blue_m u)
           (moved (blue_p u) (blue_v u) delta_t)
           (Vector_sub (blue_v u) a) l1
           (white_r u) (white_m u)
           (moved (white_p u) (white_v u) delta_t)
           (Vector_sub (Vector_sub (white_v u) ay) ab) l2.
Proof.
  update_cases delta_t u; try discriminate.
  intros H. injection H as <-.
  exists l1, l2, a, ay, ab. repeat split; reflexivity.
Qed.

(** *** The frame of [update] *)

Lemma update_fixed_part (delta_t : num) (u : Universe) :
  fixed_part (fst (update delta_t u)) = fixed_part u.
Proof. update_cases delta_t u; reflexivity. Qed.

(** A method that raises nothing returns in the universe it leaves. *)
Lemma returns_in_final_universe (m : M unit) (u : Universe) :
  snd (m u) = Ok tt -> m u = (fst (m u), Ok tt).
Proof. destruct (m u) as [u' e]. cbn. now intros ->. Qed.

Lemma updates_unfold (n : nat) (delta_t : num) (u : Universe) :
  updates (S n) delta_t u =
  match update delta_t u with
  | (u1, Ok _) => updates n delta_t u1
  | (u1, Raise e) => (u1, Raise e)
  end.
Proof. reflexivity. Qed.

Lemma updates_fixed_part (n : nat) (delta_t : num) (u : Universe) :
  fixed_part (fst (updates n delta_t u)) = fixed_part u.
Proof.
  revert u. induction n as [|n IH]; intros u; [reflexivity|].
  rewrite updates_unfold.
  pose proof (update_fixed_part delta_t u) as Hu.
  destruct (update delta_t u) as [u1 [[]|e]]; cbn [fst] in *.
  - now rewrite IH.
  - exact Hu.
Qed.

Lemma reachable_fixed_part (u : Universe) :
  reachable u ->
  exists u0, Universe_init = Ok u0 /\ fixed_part u = fixed_part u0.
Proof.
  induction 1 as [u Hu | delta_t u _ [u0 [H0 IH]]].
  - now exists u.
  - exists u0. split; [assumption|]. now rewrite update_fixed_part.
Qed.

End Facts.

(** ** The constructed universe *)

Lemma Universe_init_universe :
  Universe_init = Ok OnBinary64.universe.
Proof. reflexivity. Qed.

Lemma universe_reachable : reachable OnBinary64.universe.
Proof. apply reach_init. exact Universe_init_universe. Qed.

(** ** Geometry *)

Lemma Rleb_true (a b : R) : Exact.Rleb a b = true <-> (a <= b)%R.
Proof.
  unfold Exact.Rleb. destruct (Rle_dec a b); split; intros H;
    try reflexivity; try assumption; try discriminate; contradiction.
Qed.

(** ** The order of a rounded sum *)

Module RoundingFacts.

Import SpecFloat Rounding.

Local Open Scope Z_scope.

Lemma fexp64_eq (e : Z) : fexp64 e = Z.max (e - 53) (-1074).
Proof. reflexivity. Qed.

Lemma digits2_pos_bounds (p : positive) :
  2 ^ (Zpos (digits2_pos p) - 1) <= Zpos p < 2 ^ Zpos (digits2_pos p).
Proof.
  induction p as [p IH|p IH|]; cbn [digits2_pos].
  - rewrite Pos2Z.inj_succ, (Pos2Z.inj_xI p).
    replace (Z.succ (Zpos (digits2_pos p)) - 1)
      with (Z.succ (Zpos (digits2_pos p) - 1)) by lia.
    rewrite !Z.pow_succ_r by lia.
    generalize dependent (2 ^ (Zpos (digits2_pos p) - 1)).
    generalize (2 ^ Zpos (digits2_pos p)). lia.
  - rewrite Pos2Z.inj_succ, (Pos2Z.inj_xO p).
    replace (Z.succ (Zpos (digits2_pos p)) - 1)
      with (Z.succ (Zpos (digits2_pos p) - 1)) by lia.
    rewrite !Z.pow_succ_r by lia.
    generalize dependent (2 ^ (Zpos (digits2_pos p) - 1)).
    generalize (2 ^ Zpos (digits2_pos p)). lia.
  - cbn. lia.
Qed.

Lemma pow2_pos (n : Z) : 0 <= n -> 0 < 2 ^ n.
Proof. intros. apply Z.pow_pos_nonneg; lia. Qed.

Lemma pow2_lt_inv (a b : Z) : 0 <= b -> 2 ^ a < 2 ^ b -> a < b.
Proof. intros Hb H. apply (Z.pow_lt_mono_r_iff 2); [lia|assumption|assumption]. Qed.

Lemma digits2_pos_unique (p : positive) (n : Z) :
  0 < n -> 2 ^ (n - 1) <= Zpos p < 2 ^ n -> Zpos (digits2_pos p) = n.
Proof.
  intros Hn [Hlo Hhi]. destruct (digits2_pos_bounds p) as [Hlo' Hhi'].
  assert (Zpos (digits2_pos p) - 1 < n)
    by (apply pow2_lt_inv; lia).
  assert (n - 1 < Zpos (digits2_pos p))
    by (apply pow2_lt_inv; lia).
  lia.
Qed.

Lemma iter_xO (p d : positive) :
  Zpos (Pos.iter xO p d) = Zpos p * 2 ^ Zpos d.
Proof.
  change (Pos.iter xO p d) with (shift_pos d p).
  rewrite shift_pos_correct. change (Zpower_pos 2 d) with (2 ^ Zpos d). lia.
Qed.

Lemma shr_1_inv (mrs : shr_record) (N T : Z) :
  0 < T -> shr_inv mrs N T -> shr_inv (shr_1 mrs) N (2 * T).
Proof.
  intros HT (Hm & rho & HN & Hrho & Hloc).
  destruct mrs as [m r s]. unfold shr_inv.
  destruct m as [|[q|q|]|q];
    cbn [shr_1 shr_m loc_of_shr_record orb] in *; try lia.
  - destruct r, s; cbn [orb] in *; (split; [lia|]); exists rho; lia.
  - rewrite (Pos2Z.inj_xI q) in HN.
    destruct r, s; cbn [orb] in *; (split; [lia|]); exists (rho + T); lia.
  - rewrite (Pos2Z.inj_xO q) in HN.
    destruct r, s; cbn [orb] in *; (split; [lia|]); exists rho; lia.
  - destruct r, s; cbn [orb] in *; (split; [lia|]); exists (rho + T); lia.
Qed.

Lemma iter_shr_1_inv (n : positive) :
  forall (mrs : shr_record) (N T : Z),
    0 < T -> shr_inv mrs N T ->
    shr_inv (iter_pos shr_1 n mrs) N (T * 2 ^ Zpos n).
Proof.
  induction n as [n IH|n IH|]; intros mrs N T HT H; cbn [iter_pos].
  - replace (T * 2 ^ Zpos n~1) with (2 * T * 2 ^ Zpos n * 2 ^ Zpos n).
    + apply IH; [pose proof (pow2_pos (Zpos n)); nia|].
      apply IH; [lia|]. now apply shr_1_inv.
    + rewrite (Pos2Z.inj_xI n).
      replace (2 * Zpos n + 1) with (Zpos n + Zpos n + 1) by lia.
      rewrite !Z.pow_add_r by lia. change (2 ^ 1) with 2. ring.
  - replace (T * 2 ^ Zpos n~0) with (T * 2 ^ Zpos n * 2 ^ Zpos n).
    + apply IH; [pose proof (pow2_pos (Zpos n)); nia|].
      now apply IH.
    + rewrite (Pos2Z.inj_xO n).
      replace (2 * Zpos n) with (Zpos n + Zpos n) by lia.
      rewrite !Z.pow_add_r by lia. ring.
  - change (2 ^ 1) with 2. rewrite Z.mul_comm. now apply shr_1_inv.
Qed.

(** Rounding to nearest even moves by at most half of what was shifted
    out. *)
Lemma round_nearest_even_inv (mrs : shr_record) (N T : Z) :
  shr_inv mrs N T ->
  let m' := round_nearest_even (shr_m mrs) (loc_of_shr_record mrs) in
  shr_m mrs <= m' <= shr_m mrs + 1 /\ 2 * Z.abs (m' * T - N) <= T.
Proof.
  intros (Hm & rho & HN & Hrho & Hloc). cbv zeta.
  destruct (loc_of_shr_record mrs) as [|[| |]]; cbn [round_nearest_even];
    try destruct (Z.even (shr_m mrs)); split; lia.
Qed.

Lemma binary_round_rnd (s : bool) (p : positive) (e : Z) :
  binary_round 53 1024 s p e =
  match fst (rnd p e) with
  | Z0 => S754_zero s
  | Zpos m =>
      if snd (rnd p e) <=? 971 then S754_finite s m (snd (rnd p e))
      else S754_infinity s
  | Zneg _ => S754_nan
  end.
Proof.
  unfold binary_round, binary_round_aux, rnd.
  destruct (shl_align _ _ _) as [mz ez].
  destruct (shr_fexp 53 1024 (Zpos mz) ez loc_Exact) as [mrs' e'].
  destruct (shr_fexp 53 1024 _ e' loc_Exact) as [mrs'' e''].
  reflexivity.
Qed.

Lemma shl_align_le (p : positive) (e f : Z) :
  f <= e ->
  exists mz, shl_align p e f = (mz, f) /\ Zpos mz = Zpos p * 2 ^ (e - f).
Proof.
  intros Hfe. unfold shl_align. destruct (f - e) as [|k|k] eqn:Hk; [| lia |].
  - exists p. replace f with e by lia. rewrite Z.sub_diag. split; [reflexivity|lia].
  - exists (Pos.iter xO p k). split; [reflexivity|].
    rewrite iter_xO. f_equal. f_equal. lia.
Qed.

Lemma shl_align_gt (p : positive) (e f : Z) :
  e < f -> shl_align p e f = (p, e).
Proof.
  intros Hfe. unfold shl_align. destruct (f - e) eqn:Hk; [lia|reflexivity|lia].
Qed.

Lemma digits2_pos_shift (mz p : positive) (j : Z) :
  0 <= j -> Zpos mz = Zpos p * 2 ^ j ->
  Zpos (digits2_pos mz) = Zpos (digits2_pos p) + j.
Proof.
  intros Hj Hmz. apply digits2_pos_unique; [lia|].
  destruct (digits2_pos_bounds p) as [Hlo Hhi].
  pose proof (pow2_pos j Hj) as Hpos.
  replace (Zpos (digits2_pos p) + j - 1)
    with (Zpos (digits2_pos p) - 1 + j) by lia.
  rewrite !Z.pow_add_r by lia. rewrite Hmz. nia.
Qed.

Lemma shr_fexp_noshift (m ez : Z) :
  fexp64 (Zdigits2 m + ez) = ez ->
  shr_fexp 53 1024 m ez loc_Exact = (Build_shr_record m false false, ez).
Proof.
  intros H. unfold shr_fexp. rewrite H, Z.sub_diag. reflexivity.
Qed.

Lemma shr_fexp_shift (m ez : Z) :
  0 <= m ->
  ez < fexp64 (Zdigits2 m + ez) ->
  exists mrs,
    shr_fexp 53 1024 m ez loc_Exact = (mrs, fexp64 (Zdigits2 m + ez)) /\
    shr_inv mrs m (2 ^ (fexp64 (Zdigits2 m + ez) - ez)).
Proof.
  intros Hm H. unfold shr_fexp.
  destruct (fexp64 (Zdigits2 m + ez) - ez) as [|k|k] eqn:Hk; [lia| |lia].
  cbn [shr shr_record_of_loc].
  exists (iter_pos shr_1 k (Build_shr_record m false false)). split.
  - f_equal. lia.
  - replace (2 ^ Zpos k) with (1 * 2 ^ Zpos k) by lia.
    apply iter_shr_1_inv; [lia|].
    split; [exact Hm|]. exists 0. cbn. lia.
Qed.

Lemma shr_fexp_carry (f : Z) :
  -1074 <= f ->
  shr_fexp 53 1024 9007199254740992 f loc_Exact
  = (Build_shr_record 4503599627370496 false false, f + 1).
Proof.
  intros Hf. unfold shr_fexp.
  change (Zdigits2 9007199254740992) with 54. rewrite fexp64_eq.
  replace (Z.max (54 + f - 53) (-1074) - f) with 1 by lia. reflexivity.
Qed.

Lemma scale_pos (E0 t : Z) : E0 <= t -> 0 < scale E0 t.
Proof. intros. apply pow2_pos. lia. Qed.

Lemma scale_add (E0 t k : Z) :
  E0 <= t -> 0 <= k -> scale E0 (t + k) = 2 ^ k * scale E0 t.
Proof.
  intros. unfold scale. replace (t + k - E0) with (k + (t - E0)) by lia.
  apply Z.pow_add_r; lia.
Qed.

Lemma rnd_spec (p : positive) (e : Z) :
  rnd_ok p e (fst (rnd p e)) (snd (rnd p e)).
Proof.
  unfold rnd_ok, rnd. cbv zeta.
  set (d := Zpos (digits2_pos p)).
  set (f := fexp64 (d + e)).
  set (E0 := Z.min e (-1074)).
  assert (Hf : f = Z.max (d + e - 53) (-1074)) by apply fexp64_eq.
  pose proof (digits2_pos_bounds p) as Hd. fold d in Hd.
  assert (Hse : 0 < scale E0 e) by (apply scale_pos; lia).
  assert (Hsf : 0 < scale E0 f) by (apply scale_pos; lia).
  destruct (Z_le_gt_dec f e) as [Hfe|Hfe].
  - (* the mantissa is shifted left, nothing is rounded *)
    destruct (shl_align_le p e f Hfe) as (mz & -> & Hmz).
    assert (Hdz : Zdigits2 (Zpos mz) = d + (e - f))
      by (apply digits2_pos_shift; [lia|exact Hmz]).
    assert (Hcan : fexp64 (Zdigits2 (Zpos mz) + f) = f)
      by (rewrite Hdz; replace (d + (e - f) + f) with (d + e) by lia;
          reflexivity).
    rewrite (shr_fexp_noshift _ _ Hcan).
    cbn [shr_m loc_of_shr_record round_nearest_even].
    rewrite (shr_fexp_noshift _ _ Hcan). cbn [fst snd shr_m].
    split; [lia|]. split; [lia|]. split; [intros _; exact Hcan|].
    exists (Zpos mz). split; [lia|]. split; [reflexivity|].
    replace (Zpos mz * scale E0 f) with (Zpos p * scale E0 e).
    + rewrite Z.sub_diag. cbn [Z.abs]. lia.
    + rewrite Hmz. replace e with (f + (e - f)) at 1 by lia.
      rewrite scale_add by lia. ring.
  - (* the mantissa is shifted right and rounded *)
    rewrite (shl_align_gt p e f) by lia.
    destruct (shr_fexp_shift (Zpos p) e) as (mrs & -> & Hinv);
      [lia|now apply Z.gt_lt|]. cbn [Zdigits2] in Hinv |- *.
    fold d f in Hinv |- *.
    set (T := 2 ^ (f - e)) in Hinv.
    assert (HT : 0 < T) by (apply pow2_pos; lia).
    assert (HsfT : scale E0 f = T * scale E0 e).
    { replace f with (e + (f - e)) at 1 by lia. apply scale_add; lia. }
    destruct (round_nearest_even_inv _ _ _ Hinv) as [Hm' Hnear].
    destruct Hinv as (Hq & rho & Hp & Hrho & _).
    set (q := shr_m mrs) in *.
    set (m' := round_nearest_even q (loc_of_shr_record mrs)) in *.
    assert (Hnear' :
              2 * Z.abs (m' * scale E0 f - Zpos p * scale E0 e)
              <= scale E0 f).
    { rewrite HsfT.
      replace (m' * (T * scale E0 e) - Zpos p * scale E0 e)
        with ((m' * T - Zpos p) * scale E0 e) by ring.
      rewrite Z.abs_mul, (Z.abs_eq (scale E0 e)) by lia. nia. }
    destruct (Z.eq_dec f (d + e - 53)) as [Hnormal|Hsub].
    + (* a normal binade: the quotient has 53 digits *)
      assert (HTlo : 2 ^ (d - 1) = 4503599627370496 * T).
      { unfold T. replace (f - e) with (d - 53) by lia.
        replace (d - 1) with (52 + (d - 53)) by lia.
        rewrite Z.pow_add_r by lia. reflexivity. }
      assert (HThi : 2 ^ d = 9007199254740992 * T).
      { unfold T. replace (f - e) with (d - 53) by lia.
        replace (2 ^ d) with (2 ^ (53 + (d - 53))) by (f_equal; lia).
        rewrite Z.pow_add_r by lia. reflexivity. }
      rewrite HTlo, HThi in Hd.
      assert (Hqlo : 4503599627370496 <= q).
      { destruct (Z_le_gt_dec 4503599627370496 q) as [H|H]; [exact H|].
        exfalso.
        assert (q * T <= (4503599627370496 - 1) * T)
          by (apply Z.mul_le_mono_nonneg_r; lia).
        lia. }
      assert (Hqhi : q < 9007199254740992).
      { destruct (Z_lt_le_dec q 9007199254740992) as [H|H]; [exact H|].
        exfalso.
        assert (9007199254740992 * T <= q * T)
          by (apply Z.mul_le_mono_nonneg_r; lia).
        lia. }
      destruct (Z.eq_dec m' 9007199254740992) as [Hcarry|Hnocarry].
      * rewrite Hcarry, (shr_fexp_carry f) by lia. cbn [fst snd shr_m].
        split; [lia|]. split; [lia|]. split.
        { intros _. change (Zdigits2 4503599627370496) with 53.
          rewrite fexp64_eq. lia. }
        exists m'. split; [lia|]. split; [|exact Hnear'].
        rewrite scale_add by lia. rewrite Hcarry. change (2 ^ 1) with 2. ring.
      * assert (Hcan : fexp64 (Zdigits2 m' + f) = f).
        { destruct m' as [|mm|mm] eqn:Em; [lia| |lia].
          cbn [Zdigits2].
          rewrite (digits2_pos_unique mm 53); [rewrite fexp64_eq; lia|lia|].
          change (2 ^ (53 - 1)) with 4503599627370496.
          change (2 ^ 53) with 9007199254740992. lia. }
        rewrite (shr_fexp_noshift _ _ Hcan). cbn [fst snd shr_m].
        split; [lia|]. split; [lia|]. split; [intros _; exact Hcan|].
        exists m'. split; [lia|]. split; [reflexivity|exact Hnear'].
    + (* the subnormal binade *)
      assert (Hfmin : f = -1074) by lia.
      assert (HTd : 2 ^ d <= 4503599627370496 * T).
      { unfold T. change 4503599627370496 with (2 ^ 52).
        rewrite <- Z.pow_add_r by lia. apply Z.pow_le_mono_r; lia. }
      assert (Hqhi : q < 4503599627370496).
      { destruct (Z_lt_le_dec q 4503599627370496) as [H|H]; [exact H|].
        exfalso.
        assert (4503599627370496 * T <= q * T)
          by (apply Z.mul_le_mono_nonneg_r; lia).
        lia. }
      assert (Hcan : fexp64 (Zdigits2 m' + f) = f).
      { destruct m' as [|mm|mm] eqn:Em;
          [cbn [Zdigits2]; rewrite fexp64_eq; lia| |lia].
        cbn [Zdigits2]. destruct (digits2_pos_bounds mm) as [Hlo _].
        assert (Zpos (digits2_pos mm) - 1 < 53).
        { apply pow2_lt_inv; [lia|].
          change (2 ^ 53) with 9007199254740992. lia. }
        rewrite fexp64_eq. lia. }
      rewrite (shr_fexp_noshift _ _ Hcan). cbn [fst snd shr_m].
      split; [lia|]. split; [lia|]. split; [intros _; exact Hcan|].
      exists m'. split; [lia|]. split; [reflexivity|exact Hnear'].
Qed.

Lemma digits2_pos_mono (p1 p2 : positive) :
  Zpos p1 <= Zpos p2 -> Zpos (digits2_pos p1) <= Zpos (digits2_pos p2).
Proof.
  intros H. destruct (digits2_pos_bounds p1) as [Hlo _].
  destruct (digits2_pos_bounds p2) as [_ Hhi].
  assert (Zpos (digits2_pos p1) - 1 < Zpos (digits2_pos p2))
    by (apply pow2_lt_inv; lia).
  lia.
Qed.

(** Rounding is monotone: the value of the rounded pair does not decrease
    with the mantissa. *)
Lemma rnd_value_mono (p1 p2 : positive) (e : Z) :
  Zpos p1 < Zpos p2 ->
  let E0 := Z.min e (-1074) in
  fst (rnd p1 e) * scale E0 (snd (rnd p1 e))
  <= fst (rnd p2 e) * scale E0 (snd (rnd p2 e)).
Proof.
  intros Hp. cbv zeta.
  destruct (rnd_spec p1 e) as (_ & _ & _ & n1 & Hn1 & -> & Hnear1).
  destruct (rnd_spec p2 e) as (_ & _ & _ & n2 & Hn2 & -> & Hnear2).
  set (E0 := Z.min e (-1074)) in *.
  pose proof (digits2_pos_mono p1 p2 ltac:(lia)) as Hd.
  pose proof (digits2_pos_bounds p1) as Hb1.
  pose proof (digits2_pos_bounds p2) as Hb2.
  set (d1 := Zpos (digits2_pos p1)) in *.
  set (d2 := Zpos (digits2_pos p2)) in *.
  pose proof (fexp64_eq (d1 + e)) as Hf1.
  pose proof (fexp64_eq (d2 + e)) as Hf2.
  set (f1 := fexp64 (d1 + e)) in *.
  set (f2 := fexp64 (d2 + e)) in *.
  assert (Hse : 0 < scale E0 e) by (apply scale_pos; lia).
  assert (Hs1 : 0 < scale E0 f1) by (apply scale_pos; lia).
  assert (Hs2 : 0 < scale E0 f2) by (apply scale_pos; lia).
  assert (Hx : Zpos p1 * scale E0 e < Zpos p2 * scale E0 e)
    by (apply Z.mul_lt_mono_pos_r; lia).
  set (x1 := Zpos p1 * scale E0 e) in *.
  set (x2 := Zpos p2 * scale E0 e) in *.
  destruct (Z.eq_dec f1 f2) as [Heq|Hne].
  - (* the same binade *)
    rewrite Heq in *. set (u := scale E0 f2) in *.
    destruct (Z_le_gt_dec n1 n2) as [Hle|Hgt];
      [apply Z.mul_le_mono_nonneg_r; lia|].
    exfalso.
    assert ((n2 + 1) * u <= n1 * u)
      by (apply Z.mul_le_mono_nonneg_r; lia).
    lia.
  - (* [p2] lies in a higher binade, above the power of two between *)
    assert (Hd12 : d1 <= d2 - 1) by lia.
    assert (Hf2n : f2 = d2 + e - 53) by lia.
    assert (Hb : 2 ^ (d2 - 1) * scale E0 e
                 = 4503599627370496 * scale E0 f2).
    { unfold scale. change 4503599627370496 with (2 ^ 52).
      rewrite <- !Z.pow_add_r by lia. f_equal. lia. }
    assert (Hpow : 2 ^ d1 <= 2 ^ (d2 - 1))
      by (apply Z.pow_le_mono_r; lia).
    assert (Hc : scale E0 f2 = 2 ^ (f2 - f1) * scale E0 f1).
    { replace f2 with (f1 + (f2 - f1)) at 1 by lia. apply scale_add; lia. }
    assert (Hcpos : 0 < 2 ^ (f2 - f1)) by (apply pow2_pos; lia).
    set (c := 2 ^ (f2 - f1)) in *.
    assert (Hx2 : 4503599627370496 * scale E0 f2 <= x2).
    { rewrite <- Hb. apply Z.mul_le_mono_nonneg_r; lia. }
    assert (Hx1 : x1 < 4503599627370496 * scale E0 f2).
    { rewrite <- Hb. apply Z.lt_le_trans with (2 ^ d1 * scale E0 e).
      - apply Z.mul_lt_mono_pos_r; lia.
      - apply Z.mul_le_mono_nonneg_r; lia. }
    assert (Hn2lo : 4503599627370496 <= n2).
    { destruct (Z_le_gt_dec 4503599627370496 n2) as [H|H]; [exact H|].
      exfalso.
      assert (n2 * scale E0 f2 <= (4503599627370496 - 1) * scale E0 f2)
        by (apply Z.mul_le_mono_nonneg_r; lia).
      lia. }
    assert (Hn1hi : n1 <= 4503599627370496 * c).
    { destruct (Z_le_gt_dec n1 (4503599627370496 * c)) as [H|H];
        [exact H|].
      exfalso.
      assert ((4503599627370496 * c + 1) * scale E0 f1
              <= n1 * scale E0 f1)
        by (apply Z.mul_le_mono_nonneg_r; lia).
      rewrite Hc in Hx1. lia. }
    apply Z.le_trans with (4503599627370496 * scale E0 f2).
    + rewrite Hc.
      replace (4503599627370496 * (c * scale E0 f1))
        with (4503599627370496 * c * scale E0 f1) by ring.
      apply Z.mul_le_mono_nonneg_r; lia.
    + apply Z.mul_le_mono_nonneg_r; lia.
Qed.

(** Among canonical pairs the order of the values is the order of the
    exponents, then of the mantissas. *)
Lemma canonical_order (E0 M1 E1 M2 E2 : Z) :
  0 < M1 -> 0 < M2 -> E0 <= E1 -> E0 <= E2 ->
  fexp64 (Zdigits2 M1 + E1) = E1 ->
  fexp64 (Zdigits2 M2 + E2) = E2 ->
  M1 * scale E0 E1 <= M2 * scale E0 E2 ->
  E1 < E2 \/ (E1 = E2 /\ M1 <= M2).
Proof.
  intros HM1 HM2 HE1 HE2 Hc1 Hc2 HV.
  pose proof (scale_pos E0 E1 HE1) as Hs1.
  pose proof (scale_pos E0 E2 HE2) as Hs2.
  destruct (Z_lt_le_dec E1 E2) as [Hlt|Hge]; [now left|].
  destruct (Z.eq_dec E1 E2) as [Heq|Hne].
  - right. split; [exact Heq|]. rewrite Heq in HV. nia.
  - exfalso.
    destruct M1 as [|m1|m1]; [lia| |lia].
    destruct M2 as [|m2|m2]; [lia| |lia].
    cbn [Zdigits2] in Hc1, Hc2. rewrite fexp64_eq in Hc1, Hc2.
    destruct (digits2_pos_bounds m1) as [Hlo1 _].
    destruct (digits2_pos_bounds m2) as [_ Hhi2].
    assert (Hd1 : Zpos (digits2_pos m1) = 53) by lia.
    rewrite Hd1 in Hlo1. change (2 ^ (53 - 1)) with 4503599627370496 in Hlo1.
    assert (Hd2 : 2 ^ Zpos (digits2_pos m2) <= 2 ^ 53)
      by (apply Z.pow_le_mono_r; lia).
    change (2 ^ 53) with 9007199254740992 in Hd2.
    assert (Hs : scale E0 E1 = 2 ^ (E1 - E2) * scale E0 E2).
    { replace E1 with (E2 + (E1 - E2)) at 1 by lia. apply scale_add; lia. }
    assert (Hp : 2 ^ 1 <= 2 ^ (E1 - E2)) by (apply Z.pow_le_mono_r; lia).
    change (2 ^ 1) with 2 in Hp. rewrite Hs in HV.
    set (c := 2 ^ (E1 - E2)) in *. set (s2 := scale E0 E2) in *.
    assert (9007199254740992 * s2 <= Zpos m1 * (c * s2)) by nia.
    nia.
Qed.

Lemma rnd_mono (p1 p2 : positive) (e : Z) :
  Zpos p1 <= Zpos p2 ->
  let M1 := fst (rnd p1 e) in
  let E1 := snd (rnd p1 e) in
  let M2 := fst (rnd p2 e) in
  let E2 := snd (rnd p2 e) in
  0 <= M1 /\ 0 <= M2 /\
  (M1 = 0 \/ (0 < M1 /\ 0 < M2 /\ (E1 < E2 \/ (E1 = E2 /\ M1 <= M2)))).
Proof.
  intros Hp. cbv zeta.
  destruct (rnd_spec p1 e) as (HM1 & HE1 & Hcan1 & _).
  destruct (rnd_spec p2 e) as (HM2 & HE2 & Hcan2 & _).
  split; [exact HM1|]. split; [exact HM2|].
  destruct (Z.eq_dec (fst (rnd p1 e)) 0) as [Hz|Hnz]; [now left|right].
  assert (HM1' : 0 < fst (rnd p1 e)) by lia.
  destruct (Z.eq_dec (Zpos p1) (Zpos p2)) as [Heq|Hne].
  - injection Heq as <-. split; [exact HM1'|]. split; [exact HM1'|].
    right. split; [reflexivity|lia].
  - pose proof (rnd_value_mono p1 p2 e ltac:(lia)) as HV. cbv zeta in HV.
    pose proof (fexp64_eq (Zpos (digits2_pos p1) + e)) as Hf1.
    pose proof (fexp64_eq (Zpos (digits2_pos p2) + e)) as Hf2.
    assert (HE01 : Z.min e (-1074) <= snd (rnd p1 e)) by lia.
    assert (HE02 : Z.min e (-1074) <= snd (rnd p2 e)) by lia.
    pose proof (scale_pos _ _ HE01) as Hs1.
    pose proof (scale_pos _ _ HE02) as Hs2.
    assert (HM2' : 0 < fst (rnd p2 e)) by nia.
    split; [exact HM1'|]. split; [exact HM2'|].
    apply (canonical_order (Z.min e (-1074))); auto.
Qed.

(** The order of the floats that [binary_normalize] gives is the order of
    the integers it rounds. *)
Lemma binary_normalize_mono (m1 m2 e : Z) (s1 s2 : bool) :
  m1 <= m2 ->
  SFleb (binary_normalize 53 1024 m1 e s1) (binary_normalize 53 1024 m2 e s2)
  = true.
Proof.
  intros Hm. unfold SFleb.
  destruct m1 as [|p1|p1], m2 as [|p2|p2]; try lia;
    cbn [binary_normalize]; rewrite ?binary_round_rnd.
  - reflexivity.
  - destruct (rnd_spec p2 e) as (HM & _).
    destruct (fst (rnd p2 e)) as [|m|m]; [reflexivity| |lia].
    destruct (snd (rnd p2 e) <=? 971); reflexivity.
  - destruct (rnd_mono p1 p2 e Hm) as (H1 & H2 & H). cbv zeta in *.
    destruct (fst (rnd p1 e)) as [|a|a], (fst (rnd p2 e)) as [|b|b];
      try lia; try reflexivity.
    + destruct (snd (rnd p2 e) <=? 971); reflexivity.
    + destruct H as [H|(_ & _ & H)]; [discriminate|].
      destruct (Z.leb_spec (snd (rnd p1 e)) 971),
               (Z.leb_spec (snd (rnd p2 e)) 971);
        try reflexivity; [|lia].
      cbn [SFcompare]. destruct H as [H|[-> H]].
      * apply Z.compare_lt_iff in H. now rewrite H.
      * rewrite Z.compare_refl.
        change (Pos.compare_cont Eq a b) with (Pos.compare a b).
        destruct (Pos.compare_spec a b); try reflexivity. lia.
  - destruct (rnd_spec p1 e) as (HM & _).
    destruct (fst (rnd p1 e)) as [|m|m]; [reflexivity| |lia].
    destruct (snd (rnd p1 e) <=? 971); reflexivity.
  - destruct (rnd_spec p1 e) as (HM1 & _).
    destruct (rnd_spec p2 e) as (HM2 & _).
    destruct (fst (rnd p1 e)) as [|a|a], (fst (rnd p2 e)) as [|b|b];
      try lia; try reflexivity;
      repeat match goal with
        | |- context [?E <=? 971] => destruct (E <=? 971)
        end; reflexivity.
  - destruct (rnd_mono p2 p1 e ltac:(lia)) as (H2 & H1 & H). cbv zeta in *.
    destruct (fst (rnd p2 e)) as [|b|b], (fst (rnd p1 e)) as [|a|a];
      try lia; try reflexivity.
    + destruct (snd (rnd p1 e) <=? 971); reflexivity.
    + destruct H as [H|(_ & _ & H)]; [discriminate|].
      destruct (Z.leb_spec (snd (rnd p1 e)) 971),
               (Z.leb_spec (snd (rnd p2 e)) 971);
        try reflexivity; [|lia].
      cbn [SFcompare]. destruct H as [H|[<- H]].
      * apply Z.compare_gt_iff in H. now rewrite H.
      * rewrite Z.compare_refl.
        change (Pos.compare_cont Eq a b) with (Pos.compare a b).
        destruct (Pos.compare_spec a b); try reflexivity. lia.
Qed.

Lemma SFcompare_refl_finite (s : bool) (m : positive) (e : Z) :
  SFleb (S754_finite s m e) (S754_finite s m e) = true.
Proof.
  unfold SFleb, SFcompare. rewrite Z.compare_refl.
  change (Pos.compare_cont Eq m m) with (Pos.compare m m).
  rewrite Pos.compare_refl. destruct s; reflexivity.
Qed.

(** [c - r <= c + r] on the specification of binary64, for [r >= 0] and
    [c] not a NaN, unless both are infinite. *)
Lemma SF_sub_le_add (c r : spec_float) :
  SFleb (S754_zero false) r = true ->
  c <> S754_nan ->
  (forall sc sr, c = S754_infinity sc -> r = S754_infinity sr -> False) ->
  SFleb (SFsub 53 1024 c r) (SFadd 53 1024 c r) = true.
Proof.
  intros Hr Hc Hinf.
  destruct r as [sr|sr| |sr mr er]; try discriminate Hr.
  - destruct c as [sc|sc| |sc mc ec]; [| |congruence|].
    + destruct sc, sr; reflexivity.
    + destruct sc; reflexivity.
    + apply SFcompare_refl_finite.
  - destruct sr; [discriminate Hr|].
    destruct c as [sc|sc| |sc mc ec]; [reflexivity| |congruence|reflexivity].
    exfalso. now apply (Hinf sc false).
  - destruct sr; [discriminate Hr|].
    destruct c as [sc|sc| |sc mc ec]; [reflexivity| |congruence|].
    + destruct sc; reflexivity.
    + unfold SFsub, SFadd. cbv zeta. apply binary_normalize_mono.
      cbn [cond_Zopp]. lia.
Qed.

Lemma float_sub_le_add (c r : PrimFloat.float) :
  PrimFloat.leb PrimFloat.zero r = true ->
  PrimFloat.is_nan c = false ->
  PrimFloat.is_infinity c && PrimFloat.is_infinity r = false ->
  PrimFloat.leb (PrimFloat.sub c r) (PrimFloat.add c r) = true.
Proof.
  unfold PrimFloat.is_nan, PrimFloat.is_infinity.
  rewrite !FloatAxioms.leb_spec, !FloatAxioms.eqb_spec, !FloatAxioms.abs_spec,
    FloatAxioms.sub_spec, FloatAxioms.add_spec.
  change (FloatOps.Prim2SF PrimFloat.infinity) with (S754_infinity false).
  change (FloatOps.Prim2SF PrimFloat.zero) with (S754_zero false).
  intros Hr Hc Hinf. apply SF_sub_le_add; [exact Hr| |].
  - intros E. rewrite E in Hc. discriminate Hc.
  - intros sc sr Ec Er. rewrite Ec, Er in Hinf. discriminate Hinf.
Qed.

End RoundingFacts.

(** C7, as stated, fails on floats: a circle whose centre has a NaN has
    a radius [1.0 >= 0] and a box with [min.x <= max.x] false, and so has
    the circle of infinite centre and radius.  Such a circle is drawn:
    after [update(inf)], which returns, blue's position has a NaN and the
    box of blue's circle in the scene is not ordered. *)
Lemma box_of_nan_circle_is_not_ordered :
  let ordered (c : @Circle Binary64.number) :=
    nleb (x (min (bbox c))) (x (max (bbox c))) in
  let c1 := mkCircle (@mkVector Binary64.number PrimFloat.nan 0%float)
                     1%float in
  let c2 := mkCircle (@mkVector Binary64.number PrimFloat.infinity 0%float)
                     PrimFloat.infinity in
  let u' := fst (update (N:=Binary64.number) PrimFloat.infinity
                        OnBinary64.universe) in
  let c3 := mkCircle (blue_p u') (blue_r u') in
  (nleb (lit 0) (r c1) = true /\ ordered c1 = false) /\
  (nleb (lit 0) (r c2) = true /\ ordered c2 = false) /\
  (snd (update (N:=Binary64.number) PrimFloat.infinity OnBinary64.universe)
   = Ok tt /\
   nth_error (shapes (scene u')) 1 = Some (ACircle c3) /\
   nleb (lit 0) (r c3) = true /\ ordered c3 = false).
Proof.
  cbv zeta. repeat split; try (vm_compute; reflexivity).
Qed.

(** A box whose centre has a NaN for [x] is not ordered, whatever the
    radius. *)
Lemma float_nan_box_not_ordered (cy rad : PrimFloat.float) :
  let box := bbox (mkCircle (@mkVector Binary64.number PrimFloat.nan cy)
                            rad) in
  nleb (x (min box)) (x (max box)) = false.
Proof.
  cbv zeta. unfold bbox. cbn [x y min max o r nleb nsub nadd Binary64.number].
  rewrite FloatAxioms.leb_spec, FloatAxioms.sub_spec.
  change (FloatOps.Prim2SF PrimFloat.nan) with SpecFloat.S754_nan.
  reflexivity.
Qed.

(** On binary64 a box is ordered along a coordinate [c] of the centre
    that is no NaN, for a radius [r >= 0], when the radius or the
    coordinate is finite. *)
Lemma float_box_ordered (c rad : PrimFloat.float) :
  PrimFloat.leb PrimFloat.zero rad = true ->
  PrimFloat.is_nan c = false ->
  PrimFloat.is_finite rad = true \/ PrimFloat.is_finite c = true ->
  PrimFloat.leb (PrimFloat.sub c rad) (PrimFloat.add c rad) = true.
Proof.
  intros Hr Hc Hfin. apply RoundingFacts.float_sub_le_add; try assumption.
  unfold PrimFloat.is_finite in Hfin.
  destruct Hfin as [H|H];
    [destruct (PrimFloat.is_infinity rad); [|apply andb_false_r]
    |destruct (PrimFloat.is_infinity c); [|reflexivity]];
    rewrite orb_true_r in H; discriminate H.
Qed.

(** C7, amended: the bounding box of a circle is exactly
    [BBox((cx - r, cy - r), (cx + r, cy + r))], in any arithmetic.  A
    radius [r >= 0] gives [min.x <= max.x] and [min.y <= max.y] over the
    reals, and on binary64 when no coordinate of the centre is a NaN and
    the radius or the centre is finite.  On binary64 the box is not
    ordered for a centre whose [x] is a NaN, whatever the radius, nor for
    a centre whose [x] is infinite with the radius [inf]. *)
Theorem circle_bbox_exact_and_ordered :
  (forall (N : Number) (cx cy rad : num),
      bbox (mkCircle (mkVector cx cy) rad) =
      mkBBox (mkVector (nsub cx rad) (nsub cy rad))
             (mkVector (nadd cx rad) (nadd cy rad))) /\
  (forall (cx cy rad : @num Exact.number),
      @nleb Exact.number (lit 0) rad = true ->
      let box := bbox (mkCircle (mkVector cx cy) rad) in
      nleb (x (min box)) (x (max box)) = true /\
      nleb (y (min box)) (y (max box)) = true) /\
  (forall (cx cy rad : @num Binary64.number),
      @nleb Binary64.number (lit 0) rad = true ->
      PrimFloat.is_nan cx = false ->
      PrimFloat.is_nan cy = false ->
      PrimFloat.is_finite rad = true \/
      (PrimFloat.is_finite cx = true /\ PrimFloat.is_finite cy = true) ->
      let box := bbox (mkCircle (mkVector cx cy) rad) in
      nleb (x (min box)) (x (max box)) = true /\
      nleb (y (min box)) (y (max box)) = true) /\
  (forall (cy rad : @num Binary64.number),
      let box := bbox (mkCircle (@mkVector Binary64.number PrimFloat.nan cy)
                                rad) in
      nleb (x (min box)) (x (max box)) = false) /\
  (forall (cy : @num Binary64.number),
      let box cx := bbox (mkCircle (@mkVector Binary64.number cx cy)
                                   PrimFloat.infinity) in
      nleb (x (min (box PrimFloat.infinity)))
           (x (max (box PrimFloat.infinity))) = false /\
      nleb (x (min (box PrimFloat.neg_infinity)))
           (x (max (box PrimFloat.neg_infinity))) = false).
Proof.
  split; [|split; [|split; [|split]]].
  - reflexivity.
  - intros cx cy rad Hr. cbn in *.
    apply Rleb_true in Hr. split; apply Rleb_true; lra.
  - intros cx cy rad Hr Hx Hy Hfin. cbv zeta. unfold bbox.
    cbn [x y min max o r nleb nsub nadd Binary64.number].
    change (@nleb Binary64.number (lit 0) rad)
      with (PrimFloat.leb PrimFloat.zero rad) in Hr.
    split; apply float_box_ordered; try assumption;
      (destruct Hfin as [H|[H1 H2]]; [left; exact H|right; assumption]).
  - exact float_nan_box_not_ordered.
  - intros cy. cbv zeta. split; reflexivity.
Qed.

Lemma circle_bbox_exact_and_ordered_witness :
  let box := bbox (mkCircle (@mkVector Exact.number 200%R 0%R) 15%R) in
  let fbox := bbox (mkCircle (@mkVector Binary64.number 200%float 0%float)
                             15%float) in
  (@nleb Exact.number (lit 0) 15%R = true /\
   nleb (x (min box)) (x (max box)) = true /\
   nleb (y (min box)) (y (max box)) = true) /\
  (@nleb Binary64.number (lit 0) 15%float = true /\
   nleb (x (min fbox)) (x (max fbox)) = true /\
   nleb (y (min fbox)) (y (max fbox)) = true).
Proof.
  assert (H : @nleb Exact.number (lit 0) 15%R = true)
    by (apply Rleb_true; cbn; lra).
  assert (Hf : @nleb Binary64.number (lit 0) 15%float = true)
    by reflexivity.
  split.
  - split; [exact H|].
    exact (proj1 (proj2 circle_bbox_exact_and_ordered) 200%R 0%R 15%R H).
  - split; [exact Hf|].
    apply (proj1 (proj2 (proj2 circle_bbox_exact_and_ordered))
             200%float 0%float 15%float Hf);
      [reflexivity|reflexivity|left; reflexivity].
Defined.

(** ** The simulator *)

(** C4: a call of [update], returning or raising, leaves the anchor's
    position and every body's mass and radius as they were; so does any
    run of calls.  A [Universe] has no velocity for the anchor, and its
    other six attributes are the satellites' positions, velocities and
    trails. *)
Theorem update_writes_satellites_only :
  forall (N : Number) (n : nat) (delta_t : num) (u : Universe),
    let frame u' :=
      yellow_p u' = yellow_p u /\
      yellow_m u' = yellow_m u /\ yellow_r u' = yellow_r u /\
      blue_m u' = blue_m u /\ blue_r u' = blue_r u /\
      white_m u' = white_m u /\ white_r u' = white_r u in
    frame (fst (update delta_t u)) /\ frame (fst (updates n delta_t u)).
Proof.
  intros N n delta_t u frame.
  assert (Hf : forall u', fixed_part u' = fixed_part u -> frame u').
  { intros u' H. unfold fixed_part in H. injection H as H1 H2 H3 H4 H5 H6 H7.
    unfold frame. repeat split; assumption. }
  split; apply Hf.
  - apply update_fixed_part.
  - apply updates_fixed_part.
Qed.

Lemma Universe_init_fixed_part {N : Number} (u0 : Universe) :
  Universe_init = Ok u0 ->
  fixed_part u0 =
  (lit 50, lit 5000000, mkVector (lit 0) (lit 0),
   (lit 15, lit 3000), (lit 5, lit 100)).
Proof.
  unfold Universe_init, rbind.
  destruct (truediv _ _); [|discriminate].
  destruct (truediv _ _); [|discriminate].
  intros H. injection H as <-. reflexivity.
Qed.

(** C8: in every reachable universe [scene] is the three circles of the
    anchor, blue and white, in this order, each at the body's current
    position with its radius; the anchor's is always
    [Circle(Vector(0, 0), 50.0)] and the radii stay 15 and 5. *)
Theorem scene_is_three_circles_in_order :
  forall (N : Number) (u : Universe),
    reachable u ->
    shapes (scene u) =
    [ACircle (mkCircle (yellow_p u) (yellow_r u));
     ACircle (mkCircle (blue_p u) (blue_r u));
     ACircle (mkCircle (white_p u) (white_r u))] /\
    shapes (scene u) =
    [ACircle (mkCircle (mkVector (lit 0) (lit 0)) (lit 50));
     ACircle (mkCircle (blue_p u) (lit 15));
     ACircle (mkCircle (white_p u) (lit 5))].
Proof.
  intros N u Hu. split; [reflexivity|].
  destruct (reachable_fixed_part u Hu) as [u0 [H0 Hfix]].
  rewrite (Universe_init_fixed_part u0 H0) in Hfix.
  unfold fixed_part in Hfix. injection Hfix as H1 H2 H3 H4 H5 H6 H7.
  unfold scene; cbn. now rewrite H1, H3, H4, H6.
Qed.

Lemma scene_is_three_circles_in_order_witness :
  let u := fst (update (N:=Binary64.number) OnBinary64.DEFAULT_DELTA_T
                       OnBinary64.universe) in
  reachable u /\
  shapes (scene u) =
  [ACircle (mkCircle (mkVector (lit 0) (lit 0)) (lit 50));
   ACircle (mkCircle (blue_p u) (lit 15));
   ACircle (mkCircle (white_p u) (lit 5))].
Proof.
  assert (H : reachable (fst (update (N:=Binary64.number)
                                OnBinary64.DEFAULT_DELTA_T
                                OnBinary64.universe)))
    by (apply reach_update, universe_reachable).
  split; [exact H|].
  exact (proj2 (scene_is_three_circles_in_order _ _ H)).
Defined.

(** ** Trails *)

Section Trails.

Context {N : Number}.

Lemma length_lastn {A : Type} (k : nat) (l : list A) :
  length (lastn k l) = Nat.min k (length l).
Proof. unfold lastn. rewrite length_skipn. lia. Qed.

Lemma lastn_app_lastn {A : Type} (k : nat) (a b : list A) :
  lastn k (lastn k a ++ b) = lastn k (a ++ b).
Proof.
  unfold lastn.
  rewrite !length_app, length_skipn, !skipn_app, skipn_skipn, length_skipn.
  f_equal; f_equal; lia.
Qed.

Lemma lastn_app_long {A : Type} (k : nat) (a b : list A) :
  k <= length b -> lastn k (a ++ b) = lastn k b.
Proof.
  intros Hk. unfold lastn. rewrite length_app, skipn_app.
  rewrite skipn_all2 by lia. cbn. f_equal. lia.
Qed.

(** With a quotient [2.0 / delta_t] whose floor is [k >= 0], the loop keeps
    the last [k] items and raises nothing. *)
Lemma pop_while_floor (delta_t q : num) (k : nat) (l : list Vector) :
  truediv (lit 2) delta_t = Ok q ->
  nfloor q = Fin (Z.of_nat k) ->
  pop_while delta_t l = (lastn k l, Ok tt).
Proof.
  intros Hq Hk. unfold lastn.
  induction l as [|p t IH]; cbn [pop_while]; rewrite Hq; unfold len_gt;
    rewrite Hk.
  - cbn [length]. destruct (Z.ltb_spec (Z.of_nat k) (Z.of_nat 0)); [lia|].
    reflexivity.
  - cbn [length].
    destruct (Z.ltb_spec (Z.of_nat k) (Z.of_nat (S (length t)))) as [Hlt|Hge].
    + rewrite IH. replace (S (length t) - k) with (S (length t - k)) by lia.
      reflexivity.
    + replace (S (length t) - k) with 0 by lia. reflexivity.
Qed.

(** One call: each trail becomes the last [k] items of itself followed by
    the satellite's position before the call. *)
Lemma update_trails (delta_t q : num) (k : nat) (u u' : Universe) :
  truediv (lit 2) delta_t = Ok q ->
  nfloor q = Fin (Z.of_nat k) ->
  update delta_t u = (u', Ok tt) ->
  blue_trail u' = lastn k (blue_trail u ++ [blue_p u]) /\
  white_trail u' = lastn k (white_trail u ++ [white_p u]).
Proof.
  intros Hq Hk Hu.
  destruct (update_Ok _ _ _ Hu)
    as (l1 & l2 & a & ay & ab & H1 & H2 & _ & _ & _ & ->).
  rewrite (pop_while_floor _ _ _ _ Hq Hk) in H1.
  rewrite (pop_while_floor _ _ _ _ Hq Hk) in H2.
  injection H1 as <-. injection H2 as <-. split; reflexivity.
Qed.

(** A run of at least one call, for an attribute [trail] that each call
    extends by the attribute [pos] and trims. *)
Lemma run_trail (delta_t : num) (k : nat)
      (trail : Universe -> list Vector) (pos : Universe -> Vector) :
  (forall u u', update delta_t u = (u', Ok tt) ->
                trail u' = lastn k (trail u ++ [pos u])) ->
  forall n u u',
    updates (S n) delta_t u = (u', Ok tt) ->
    trail u' = lastn k (trail u ++ map pos (states (S n) delta_t u)).
Proof.
  intros Hstep. induction n as [|n IH]; intros u u' Hrun;
    rewrite updates_unfold in Hrun;
    destruct (update delta_t u) as [u1 [[]|e]] eqn:Hu; try discriminate;
    cbn [states map]; rewrite ?Hu; cbn [fst].
  - cbn in Hrun. injection Hrun as <-. now apply Hstep.
  - rewrite (IH _ _ Hrun), (Hstep _ _ Hu), lastn_app_lastn, <- app_assoc.
    reflexivity.
Qed.

Lemma length_states (n : nat) (delta_t : num) (u : Universe) :
  length (states n delta_t u) = n.
Proof.
  revert u. induction n as [|n IH]; intros u; cbn; [|rewrite IH]; reflexivity.
Qed.

End Trails.

(** In exact arithmetic every positive time step has a quotient
    [2.0 / delta_t] with a floor [k >= 0]. *)
Lemma exact_positive_step_floor (delta_t : @num Exact.number) :
  (0 < delta_t)%R ->
  exists k : nat,
    @truediv Exact.number (lit 2) delta_t = Ok (2 / delta_t)%R /\
    @nfloor Exact.number (2 / delta_t)%R = Fin (Z.of_nat k) /\
    (INR k <= 2 / delta_t < INR k + 1)%R.
Proof.
  intros Hpos.
  assert (Hq : (0 < 2 / delta_t)%R) by (apply Rdiv_lt_0_compat; lra).
  destruct (base_Int_part (2 / delta_t)) as [Hle Hgt].
  assert (H0 : (0 <= Int_part (2 / delta_t))%Z).
  { assert (H : (-1 < Int_part (2 / delta_t))%Z) by (apply lt_IZR; lra).
    lia. }
  exists (Z.to_nat (Int_part (2 / delta_t))).
  rewrite Z2Nat.id by exact H0. rewrite INR_IZR_INZ, Z2Nat.id by exact H0.
  split; [|split; [reflexivity|lra]].
  unfold truediv. change (nis_zero delta_t) with (Exact.Reqb delta_t 0).
  unfold Exact.Reqb. destruct (Req_dec_T delta_t 0); [lra|reflexivity].
Qed.

(** C3: with [k] the floor of [2.0 / delta_t], after [n > k] calls that
    return, each trail has exactly [k] items: the satellite's positions
    before each of the last [k] calls, oldest first. *)
Theorem trail_is_last_positions :
  forall (N : Number) (n k : nat) (delta_t q : num) (u u' : Universe),
    truediv (lit 2) delta_t = Ok q ->
    nfloor q = Fin (Z.of_nat k) ->
    k < n ->
    updates n delta_t u = (u', Ok tt) ->
    (length (blue_trail u') = k /\
     blue_trail u' = lastn k (map blue_p (states n delta_t u))) /\
    (length (white_trail u') = k /\
     white_trail u' = lastn k (map white_p (states n delta_t u))).
Proof.
  intros N n k delta_t q u u' Hq Hk Hn Hrun.
  destruct n as [|n]; [lia|].
  assert (Hlen : forall pos : Universe -> Vector,
             k <= length (map pos (states (S n) delta_t u)))
    by (intros pos; rewrite length_map, length_states; lia).
  assert (Hb : blue_trail u' = lastn k (map blue_p (states (S n) delta_t u))).
  { rewrite (run_trail delta_t k blue_trail blue_p) with (n := n) (u := u)
      by (intros; try eapply update_trails; eassumption).
    apply lastn_app_long, Hlen. }
  assert (Hw : white_trail u' = lastn k (map white_p (states (S n) delta_t u))).
  { rewrite (run_trail delta_t k white_trail white_p) with (n := n) (u := u)
      by (intros; try eapply update_trails; eassumption).
    apply lastn_app_long, Hlen. }
  split; (split; [|assumption]).
  - rewrite Hb, length_lastn. specialize (Hlen blue_p). lia.
  - rewrite Hw, length_lastn. specialize (Hlen white_p). lia.
Qed.

Lemma trail_is_last_positions_witness :
  let delta_t := OnBinary64.DEFAULT_DELTA_T in
  let u := OnBinary64.universe in
  let u' := fst (updates 41 delta_t u) in
  (length (blue_trail u') = 40 /\
   blue_trail u' = lastn 40 (map blue_p (states 41 delta_t u))) /\
  (length (white_trail u') = 40 /\
   white_trail u' = lastn 40 (map white_p (states 41 delta_t u))).
Proof.
  intros delta_t u u'.
  apply (trail_is_last_positions Binary64.number 41 40 delta_t
           (@lit Binary64.number 40) u u').
  - vm_compute. reflexivity.
  - vm_compute. reflexivity.
  - lia.
  - apply (returns_in_final_universe (updates 41 delta_t) u).
    vm_compute. reflexivity.
Defined.

(** ** Integration *)

(** Telling two results apart by a test on them. *)
Lemma results_differ {A : Type} (test : result A -> bool) (r1 r2 : result A) :
  test r1 = true -> test r2 = false -> r1 <> r2.
Proof. intros H1 H2 ->. rewrite H1 in H2. discriminate. Qed.

(** C1, as stated, fails on the constructed universe with the default time
    step: blue's new velocity is not the one that includes a term from
    white, whether white's position is taken before or after its move. *)
Lemma blue_velocity_has_no_white_term :
  let delta_t := OnBinary64.DEFAULT_DELTA_T in
  let u := OnBinary64.universe in
  let u' := fst (update delta_t u) in
  update delta_t u = (u', Ok tt) /\
  spec_velocity (blue_v u) (blue_p u')
    [(yellow_m u, yellow_p u); (white_m u, white_p u)] delta_t
  <> Ok (blue_v u') /\
  spec_velocity (blue_v u) (blue_p u')
    [(yellow_m u, yellow_p u); (white_m u, white_p u')] delta_t
  <> Ok (blue_v u').
Proof.
  intros delta_t u u'.
  split; [apply (returns_in_final_universe (update delta_t) u);
          vm_compute; reflexivity|].
  split; apply not_eq_sym;
    apply (results_differ (is_Ok_Vector (blue_v u'))); vm_compute; reflexivity.
Qed.

(** Blue's attributes after a call are those of the same steps taken
    without white. *)
Lemma update_blue_part {N : Number} (delta_t : num) (u : Universe) :
  let u' := fst (update delta_t u) in
  let (l1, e1) := pop_while delta_t (blue_trail u ++ [blue_p u]) in
  blue_trail u' = l1 /\
  match e1 with
  | Raise _ => blue_p u' = blue_p u /\ blue_v u' = blue_v u
  | Ok _ =>
      blue_p u' = moved (blue_p u) (blue_v u) delta_t /\
      match attraction (yellow_m u) (blue_d u delta_t) delta_t with
      | Ok a => blue_v u' = Vector_sub (blue_v u) a
      | Raise _ => blue_v u' = blue_v u
      end
  end.
Proof.
  cbv zeta. update_cases delta_t u; cbn; repeat split; reflexivity.
Qed.

(** C1, amended: a call that returns has changed blue's velocity by the
    anchor's term alone and white's velocity by the anchor's term and then
    blue's, each term being [-G * m * d / |d|^3 * delta_t] at the new
    positions; and whatever the call does, what it leaves in blue's
    attributes does not depend on white's attributes. *)
Theorem velocity_terms :
  forall (N : Number) (delta_t : num),
    (forall u u' : Universe,
        update delta_t u = (u', Ok tt) ->
        spec_velocity (blue_v u) (blue_p u')
          [(yellow_m u, yellow_p u)] delta_t = Ok (blue_v u') /\
        spec_velocity (white_v u) (white_p u')
          [(yellow_m u, yellow_p u); (blue_m u, blue_p u')] delta_t
        = Ok (white_v u')) /\
    (forall (u : Universe) (r m : num) (p v : Vector) (trail : list Vector),
        let w := mkUniverse (yellow_r u) (yellow_m u) (yellow_p u)
                   (blue_r u) (blue_m u) (blue_p u) (blue_v u) (blue_trail u)
                   r m p v trail in
        blue_p (fst (update delta_t w)) = blue_p (fst (update delta_t u)) /\
        blue_v (fst (update delta_t w)) = blue_v (fst (update delta_t u)) /\
        blue_trail (fst (update delta_t w))
        = blue_trail (fst (update delta_t u))).
Proof.
  intros N delta_t. split.
  - intros u u' Hu.
    destruct (update_Ok _ _ _ Hu)
      as (l1 & l2 & a & ay & ab & _ & _ & Ha & Hay & Hab & ->).
    unfold blue_d, white_dyellow, white_dblue in *.
    cbn [spec_velocity blue_p blue_v white_p white_v].
    rewrite Ha, Hay. cbn [rbind]. rewrite Hab. split; reflexivity.
  - intros u r m p v trail w.
    pose proof (update_blue_part delta_t u) as Hu.
    pose proof (update_blue_part delta_t w) as Hw.
    cbv zeta in Hu, Hw. unfold blue_d in *. subst w.
    cbn [blue_p blue_v blue_trail yellow_p yellow_m] in Hw.
    destruct (pop_while delta_t (blue_trail u ++ [blue_p u])) as [l1 [[]|e]].
    + destruct Hu as (Hu1 & Hu2 & Hu3). destruct Hw as (Hw1 & Hw2 & Hw3).
      rewrite Hu1, Hu2, Hw1, Hw2. repeat split.
      destruct (attraction _ _ _); congruence.
    + destruct Hu as (Hu1 & Hu2 & Hu3). destruct Hw as (Hw1 & Hw2 & Hw3).
      rewrite Hu1, Hu2, Hu3, Hw1, Hw2, Hw3. repeat split.
Qed.

Lemma velocity_terms_witness :
  let delta_t := OnBinary64.DEFAULT_DELTA_T in
  let u := OnBinary64.universe in
  let u' := fst (update delta_t u) in
  spec_velocity (blue_v u) (blue_p u')
    [(yellow_m u, yellow_p u)] delta_t = Ok (blue_v u') /\
  spec_velocity (white_v u) (white_p u')
    [(yellow_m u, yellow_p u); (blue_m u, blue_p u')] delta_t
  = Ok (white_v u').
Proof.
  intros delta_t u u'.
  apply (proj1 (velocity_terms Binary64.number delta_t) u u').
  apply (returns_in_final_universe (update delta_t) u).
  vm_compute. reflexivity.
Defined.

(** C6, as stated, fails in its last part: after the first call blue's
    velocity has a [y] that is not below the initial one. *)
Lemma blue_velocity_y_not_more_negative :
  let u := OnBinary64.universe in
  let u' := fst (update OnBinary64.DEFAULT_DELTA_T u) in
  nltb (y (blue_v u')) (y (blue_v u)) = false.
Proof. vm_compute. reflexivity. Qed.

(** C6, amended: the constructor puts the anchor of mass 5,000,000 at the
    origin and blue at (200, 0) with velocity (0, -sqrt(5,000,000/200)),
    which is (0, -158.113883) to six decimals; the first [update(0.05)]
    moves blue to (200, -7.905694) and leaves it the velocity
    (-6.235380, -157.867408), all to six decimals: the velocity's [y] is
    slightly above the initial one, by 0.2465, and its [x] is now
    negative. *)
Theorem blue_first_step :
  let u := OnBinary64.universe in
  let delta_t := OnBinary64.DEFAULT_DELTA_T in
  let u' := fst (update delta_t u) in
  let within (a lo hi : PrimFloat.float) :=
    PrimFloat.ltb lo a = true /\ PrimFloat.ltb a hi = true in
  Universe_init = Ok u /\
  (yellow_m u = 5000000%float /\
   yellow_p u = @mkVector Binary64.number 0%float 0%float /\
   @G Binary64.number = 1%float /\ delta_t = 0.05%float) /\
  (blue_p u = @mkVector Binary64.number 200%float 0%float /\
   blue_v u =
   @mkVector Binary64.number 0%float
     (PrimFloat.opp (@pow_half Binary64.number (PrimFloat.div 5000000 200))) /\
   within (y (blue_v u)) (-158.113884)%float (-158.113882)%float) /\
  update delta_t u = (u', Ok tt) /\
  (x (blue_p u') = 200%float /\
   within (y (blue_p u')) (-7.905695)%float (-7.905693)%float) /\
  (within (x (blue_v u')) (-6.235381)%float (-6.235379)%float /\
   within (y (blue_v u')) (-157.867409)%float (-157.867407)%float /\
   within (PrimFloat.sub (y (blue_v u')) (y (blue_v u)))
          0.246474%float 0.246476%float /\
   PrimFloat.ltb (y (blue_v u)) (y (blue_v u')) = true /\
   PrimFloat.ltb (x (blue_v u')) 0 = true).
Proof.
  intros u delta_t u'. split; [exact Universe_init_universe|].
  split; [repeat split|].
  split; [split; [reflexivity|]; split; [reflexivity|];
          split; vm_compute; reflexivity|].
  split; [apply (returns_in_final_universe (update delta_t) u);
          vm_compute; reflexivity|].
  split; [split; [reflexivity|split; vm_compute; reflexivity]|].
  repeat split; vm_compute; reflexivity.
Qed.

(** ** Division by zero *)

Section Division.

Context {N : Number}.

Lemma attraction_cases (m : num) (d : Vector) (delta_t : num) :
  attraction m d delta_t =
  match cube (Vector_abs d) with
  | None => Raise OverflowError
  | Some c =>
      if nis_zero c then Raise ZeroDivisionError
      else Ok (Vector_mul
                 (mkVector (nquot (nmul (nmul G m) (x d)) c)
                           (nquot (nmul (nmul G m) (y d)) c))
                 delta_t)
  end.
Proof.
  unfold attraction, pow_3, Vector_truediv, truediv, rbind.
  destruct (cube (Vector_abs d)) as [c|]; [|reflexivity].
  cbn. destruct (nis_zero c); reflexivity.
Qed.

Lemma attraction_ZeroDivisionError (m : num) (d : Vector) (delta_t : num) :
  attraction m d delta_t = Raise ZeroDivisionError <-> zero_cube d.
Proof.
  rewrite attraction_cases. unfold zero_cube, pow_3.
  destruct (cube (Vector_abs d)) as [c|].
  - destruct (nis_zero c) eqn:Hc; split; intros H; try discriminate.
    + now exists c.
    + reflexivity.
    + destruct H as (c' & Hc' & Hz). injection Hc' as <-. congruence.
  - split; [discriminate|]. intros (c' & Hc' & _). discriminate.
Qed.

Lemma pop_while_zero (delta_t : num) (l : list Vector) :
  nis_zero delta_t = true ->
  pop_while delta_t l = (l, Raise ZeroDivisionError).
Proof.
  intros H. destruct l; cbn [pop_while]; unfold truediv; rewrite H;
    reflexivity.
Qed.

Lemma pop_while_ZeroDivisionError (delta_t : num) (l : list Vector) :
  snd (pop_while delta_t l) = Raise ZeroDivisionError ->
  nis_zero delta_t = true.
Proof.
  destruct (nis_zero delta_t) eqn:Hz; [reflexivity|].
  induction l as [|p t IH]; cbn [pop_while]; unfold truediv; rewrite Hz.
  - destruct (len_gt _ _); discriminate.
  - destruct (len_gt _ _); [exact IH|discriminate].
Qed.

(** When, exactly, a call raises [ZeroDivisionError]. *)
Lemma update_ZeroDivisionError (delta_t : num) (u : Universe) :
  snd (update delta_t u) = Raise ZeroDivisionError <->
  nis_zero delta_t = true \/
  (snd (pop_while delta_t (blue_trail u ++ [blue_p u])) = Ok tt /\
   (zero_cube (blue_d u delta_t) \/
    (exists a, attraction (yellow_m u) (blue_d u delta_t) delta_t = Ok a) /\
    snd (pop_while delta_t (white_trail u ++ [white_p u])) = Ok tt /\
    (zero_cube (white_dyellow u delta_t) \/
     (exists ay,
         attraction (yellow_m u) (white_dyellow u delta_t) delta_t = Ok ay) /\
     zero_cube (white_dblue u delta_t)))).
Proof.
  rewrite <- (attraction_ZeroDivisionError (yellow_m u) (blue_d u delta_t)
                delta_t).
  rewrite <- (attraction_ZeroDivisionError (yellow_m u)
                (white_dyellow u delta_t) delta_t).
  rewrite <- (attraction_ZeroDivisionError (blue_m u)
                (white_dblue u delta_t) delta_t).
  destruct (nis_zero delta_t) eqn:Hz.
  - rewrite update_unfold, (pop_while_zero _ _ Hz). cbn [snd].
    split; [now left|reflexivity].
  - assert (Hpop : forall l l', pop_while delta_t l
                               <> (l', Raise ZeroDivisionError)).
    { intros l l' H. apply (f_equal snd) in H. cbn [snd] in H.
      apply pop_while_ZeroDivisionError in H. congruence. }
    update_cases delta_t u; cbn [snd];
      try (destruct e;
           try (exfalso; eapply Hpop; eassumption));
      split; intros H;
      repeat match goal with
        | H : _ \/ _ |- _ => destruct H
        | H : _ /\ _ |- _ => destruct H
        | H : exists _, _ |- _ => destruct H
        end;
      try discriminate; try reflexivity;
      right; (split; [reflexivity|]);
      try (left; reflexivity);
      right; (split; [eexists; reflexivity|]); (split; [reflexivity|]);
      try (left; reflexivity);
      right; (split; [eexists; reflexivity|reflexivity]).
Qed.

End Division.

(** ** Position first, then velocity *)

(** A term that [attraction] returns, on coordinates. *)
Lemma attraction_Ok (N : Number) (m : num) (d : Vector) (delta_t : num)
      (a : Vector) :
  attraction m d delta_t = Ok a ->
  exists c,
    cube (pow_half (nadd (nmul (x d) (x d)) (nmul (y d) (y d)))) = Some c /\
    nis_zero c = false /\
    x a = nmul delta_t (nquot (nmul (nmul (lit 1) m) (x d)) c) /\
    y a = nmul delta_t (nquot (nmul (nmul (lit 1) m) (y d)) c).
Proof.
  rewrite attraction_cases. unfold Vector_abs, G.
  destruct (cube _) as [c|]; [|discriminate].
  destruct (nis_zero c) eqn:Hc; [discriminate|].
  intros [= <-]. exists c. repeat split. exact Hc.
Qed.

(** C2: in a call that returns, each coordinate of a satellite's new
    position is the old one plus [delta_t] times the old velocity's, and
    each coordinate of its new velocity is the old one minus
    [delta_t * (G * m * d / |d| ** 3)], with [d] taken from the new
    position (for white's second term, from the new positions of white
    and of blue), [|d| ** 3] being in range and not zero. *)
Theorem position_first_then_velocity :
  forall (N : Number) (delta_t : num) (u u' : Universe),
    update delta_t u = (u', Ok tt) ->
    let step p v := nadd p (nmul delta_t v) in
    let norm dx dy := pow_half (nadd (nmul dx dx) (nmul dy dy)) in
    let pull m d c := nmul delta_t (nquot (nmul (nmul (lit 1) m) d) c) in
    let bx := step (x (blue_p u)) (x (blue_v u)) in
    let by_ := step (y (blue_p u)) (y (blue_v u)) in
    let wx := step (x (white_p u)) (x (white_v u)) in
    let wy := step (y (white_p u)) (y (white_v u)) in
    (x (blue_p u') = bx /\ y (blue_p u') = by_ /\
     x (white_p u') = wx /\ y (white_p u') = wy) /\
    (let dx := nsub bx (x (yellow_p u)) in
     let dy := nsub by_ (y (yellow_p u)) in
     exists c,
       cube (norm dx dy) = Some c /\ nis_zero c = false /\
       x (blue_v u') = nsub (x (blue_v u)) (pull (yellow_m u) dx c) /\
       y (blue_v u') = nsub (y (blue_v u)) (pull (yellow_m u) dy c)) /\
    (let dyx := nsub wx (x (yellow_p u)) in
     let dyy := nsub wy (y (yellow_p u)) in
     let dbx := nsub wx bx in
     let dby := nsub wy by_ in
     exists cy cb,
       (cube (norm dyx dyy) = Some cy /\ nis_zero cy = false) /\
       (cube (norm dbx dby) = Some cb /\ nis_zero cb = false) /\
       x (white_v u')
       = nsub (nsub (x (white_v u)) (pull (yellow_m u) dyx cy))
              (pull (blue_m u) dbx cb) /\
       y (white_v u')
       = nsub (nsub (y (white_v u)) (pull (yellow_m u) dyy cy))
              (pull (blue_m u) dby cb)).
Proof.
  intros N delta_t u u' Hu. cbv zeta.
  destruct (update_Ok _ _ _ Hu)
    as (l1 & l2 & a & ay & ab & _ & _ & Ha & Hay & Hab & ->).
  apply attraction_Ok in Ha as (c & Hc & Hcz & Hax & Hay').
  apply attraction_Ok in Hay as (cy & Hcy & Hcyz & Hyx & Hyy).
  apply attraction_Ok in Hab as (cb & Hcb & Hcbz & Hbx & Hby).
  unfold blue_d, white_dyellow, white_dblue, moved, Vector_sub, Vector_add,
    Vector_mul in *.
  cbn [x y blue_p blue_v white_p white_v] in *.
  split; [repeat split|]. split.
  - exists c. rewrite <- Hax, <- Hay'. repeat split; assumption.
  - exists cy, cb. rewrite <- Hyx, <- Hyy, <- Hbx, <- Hby.
    repeat split; assumption.
Qed.

Lemma position_first_then_velocity_witness :
  let u := OnBinary64.universe in
  let u' := fst (update OnBinary64.DEFAULT_DELTA_T u) in
  (x (blue_p u') = PrimFloat.add 200 (PrimFloat.mul 0.05 0) /\
   y (blue_p u')
   = PrimFloat.add 0 (PrimFloat.mul 0.05 (-158.11388300841898)) /\
   x (white_p u') = PrimFloat.add 200 (PrimFloat.mul 0.05 0) /\
   y (white_p u')
   = PrimFloat.add 30 (PrimFloat.mul 0.05 (-157.2367922011494))) /\
  PrimFloat.eqb (y (blue_p u')) (-7.905694150420949) = true /\
  PrimFloat.eqb (y (blue_v u')) (-157.86740796769095) = true.
Proof.
  intros u u'.
  split; [|split; vm_compute; reflexivity].
  apply (position_first_then_velocity Binary64.number
           OnBinary64.DEFAULT_DELTA_T u u').
  apply (returns_in_final_universe (update OnBinary64.DEFAULT_DELTA_T) u).
  vm_compute. reflexivity.
Defined.

(** *** On binary64 *)

Lemma float_finite_cases (a : PrimFloat.float) :
  PrimFloat.is_finite a = true ->
  (exists s, FloatOps.Prim2SF a = SpecFloat.S754_zero s) \/
  (exists s m e, FloatOps.Prim2SF a = SpecFloat.S754_finite s m e).
Proof.
  unfold PrimFloat.is_finite, PrimFloat.is_nan, PrimFloat.is_infinity.
  rewrite !FloatAxioms.eqb_spec, FloatAxioms.abs_spec.
  change (FloatOps.Prim2SF PrimFloat.infinity)
    with (SpecFloat.S754_infinity false).
  destruct (FloatOps.Prim2SF a) as [s|s| |s m e]; cbn; try discriminate.
  - intros _. left. now exists s.
  - destruct s; discriminate.
  - intros _. right. now exists s, m, e.
Qed.

(** A finite float minus itself is [0.0]. *)
Lemma float_sub_self (a : PrimFloat.float) :
  PrimFloat.is_finite a = true -> PrimFloat.sub a a = PrimFloat.zero.
Proof.
  intros H. rewrite <- (FloatAxioms.SF2Prim_Prim2SF (PrimFloat.sub a a)).
  rewrite FloatAxioms.sub_spec.
  destruct (float_finite_cases a H) as [[s ->]|(s & m & e & ->)].
  - destruct s; reflexivity.
  - unfold FloatAxioms.SF64sub, SpecFloat.SFsub. cbv zeta.
    unfold SpecFloat.shl_align. rewrite Z.min_id, Z.sub_diag. cbn [fst].
    reflexivity.
Qed.

Lemma float_zero_abs_zero_cube (d : @Vector Binary64.number) :
  Vector_abs d = PrimFloat.zero -> zero_cube d.
Proof.
  intros H. exists PrimFloat.zero. rewrite H. split; reflexivity.
Qed.

Lemma float_same_position_zero_cube (p : @Vector Binary64.number) :
  PrimFloat.is_finite (x p) = true ->
  PrimFloat.is_finite (y p) = true ->
  zero_cube (Vector_sub p p).
Proof.
  intros Hx Hy. apply float_zero_abs_zero_cube.
  unfold Vector_sub, Vector_abs. cbn.
  rewrite (float_sub_self _ Hx), (float_sub_self _ Hy). reflexivity.
Qed.

(** *** In exact arithmetic *)

Lemma Reqb_true (a b : R) : Exact.Reqb a b = true <-> a = b.
Proof.
  unfold Exact.Reqb. destruct (Req_dec_T a b); split; intros H;
    try reflexivity; try assumption; try discriminate; contradiction.
Qed.

Lemma cube_of_norm_zero (a b : R) :
  (sqrt (a * a + b * b) * sqrt (a * a + b * b) * sqrt (a * a + b * b))%R
  = 0%R <-> a = 0%R /\ b = 0%R.
Proof.
  split.
  - intros Hz.
    assert (Hs : sqrt (a * a + b * b) = 0%R).
    { destruct (Rmult_integral _ _ Hz) as [H|H]; [|exact H].
      destruct (Rmult_integral _ _ H); assumption. }
    apply sqrt_eq_0 in Hs; [|nra]. split; nra.
  - intros [-> ->]. replace (0 * 0 + 0 * 0)%R with 0%R by ring.
    rewrite sqrt_0. ring.
Qed.

Lemma exact_zero_cube (p q : @Vector Exact.number) :
  zero_cube (Vector_sub p q) <-> p = q.
Proof.
  destruct p as [px py], q as [qx qy]. unfold zero_cube, pow_3. cbn. split.
  - intros (c & Hc & Hz). injection Hc as <-. apply Reqb_true in Hz.
    apply cube_of_norm_zero in Hz as [Hx Hy].
    apply Rminus_diag_uniq in Hx, Hy. now subst.
  - intros [= -> ->]. eexists. split; [reflexivity|]. apply Reqb_true.
    apply cube_of_norm_zero. split; apply Rminus_diag.
Qed.

(** On binary64 the cube of a distance that is not zero can be zero: here
    the distance is about 1e-110 and its cube is below the least float. *)
Lemma float_cube_underflows :
  let p := @mkVector Binary64.number 1e-110%float 0%float in
  let q := @mkVector Binary64.number 0%float 0%float in
  Vector_eq p q = false /\
  nis_zero (Vector_abs (Vector_sub p q)) = false /\
  zero_cube (Vector_sub p q).
Proof.
  cbv zeta. split; [vm_compute; reflexivity|].
  split; [vm_compute; reflexivity|].
  exists PrimFloat.zero. split; vm_compute; reflexivity.
Qed.

(** C5, as stated, fails in its second part: with a time step of [0.0] the
    constructed universe has its three pairs of positions distinct, and
    [update] divides by zero. *)
Lemma zero_time_step_divides_by_zero :
  let u := OnBinary64.universe in
  let delta_t : @num Binary64.number := 0%float in
  let blue' := moved (blue_p u) (blue_v u) delta_t in
  let white' := moved (white_p u) (white_v u) delta_t in
  Vector_eq blue' (yellow_p u) = false /\
  Vector_eq white' (yellow_p u) = false /\
  Vector_eq white' blue' = false /\
  snd (update delta_t u) = Raise ZeroDivisionError.
Proof. vm_compute. repeat split. Qed.

(** C5, amended: [update] raises [ZeroDivisionError] exactly when
    [delta_t == 0], at [2.0 / delta_t], or when, the steps before having
    raised nothing, the [abs(d) ** 3] of the next pair is zero; nothing
    guards the division.  So with [delta_t != 0] and the three cubes not
    zero no division by zero occurs.  On binary64 the cube is zero when
    [abs(d)] is [0.0], as it is for identical finite positions, and it can
    be zero for positions that differ; in exact arithmetic it is zero only
    for identical positions. *)
Theorem division_by_zero_in_update :
  (forall (N : Number) (delta_t : num) (u : Universe),
      (snd (update delta_t u) = Raise ZeroDivisionError <->
       nis_zero delta_t = true \/
       (snd (pop_while delta_t (blue_trail u ++ [blue_p u])) = Ok tt /\
        (zero_cube (blue_d u delta_t) \/
         (exists a,
             attraction (yellow_m u) (blue_d u delta_t) delta_t = Ok a) /\
         snd (pop_while delta_t (white_trail u ++ [white_p u])) = Ok tt /\
         (zero_cube (white_dyellow u delta_t) \/
          (exists ay,
              attraction (yellow_m u) (white_dyellow u delta_t) delta_t
              = Ok ay) /\
          zero_cube (white_dblue u delta_t))))) /\
      (nis_zero delta_t = false ->
       ~ zero_cube (blue_d u delta_t) ->
       ~ zero_cube (white_dyellow u delta_t) ->
       ~ zero_cube (white_dblue u delta_t) ->
       snd (update delta_t u) <> Raise ZeroDivisionError)) /\
  (forall d : @Vector Binary64.number,
      Vector_abs d = 0%float -> zero_cube d) /\
  (forall p : @Vector Binary64.number,
      PrimFloat.is_finite (x p) = true ->
      PrimFloat.is_finite (y p) = true ->
      zero_cube (Vector_sub p p)) /\
  (exists p q : @Vector Binary64.number,
      Vector_eq p q = false /\ zero_cube (Vector_sub p q)) /\
  (forall p q : @Vector Exact.number, zero_cube (Vector_sub p q) <-> p = q).
Proof.
  split; [|split; [|split; [|split]]].
  - intros N delta_t u. split; [apply update_ZeroDivisionError|].
    intros Hz H1 H2 H3 H. apply update_ZeroDivisionError in H.
    destruct H as [H|(_ & [H|(_ & _ & [H|(_ & H)])])];
      [congruence|contradiction..].
  - exact float_zero_abs_zero_cube.
  - exact float_same_position_zero_cube.
  - eexists. eexists. split; apply float_cube_underflows.
  - exact exact_zero_cube.
Qed.

Lemma division_by_zero_in_update_witness :
  let u := OnBinary64.universe in
  let delta_t := OnBinary64.DEFAULT_DELTA_T in
  snd (update delta_t u) <> Raise ZeroDivisionError.
Proof.
  intros u delta_t.
  assert (Hcube : forall d : @Vector Binary64.number,
             match cube (Vector_abs d) with
             | Some c => nis_zero c = false
             | None => True
             end -> ~ zero_cube d).
  { intros d H (c & Hc & Hz). unfold pow_3 in Hc.
    destruct (cube (Vector_abs d)); [|discriminate].
    injection Hc as <-. congruence. }
  apply (proj2 (proj1 division_by_zero_in_update Binary64.number delta_t u)).
  - vm_compute. reflexivity.
  - apply Hcube. vm_compute. reflexivity.
  - apply Hcube. vm_compute. reflexivity.
  - apply Hcube. vm_compute. reflexivity.
Defined.

(** ** Translation *)

(** Adding [0.0] to a float that is not a NaN gives a float equal to it. *)
Lemma float_add_zero (a : PrimFloat.float) :
  PrimFloat.eqb a a = true ->
  PrimFloat.eqb (PrimFloat.add a PrimFloat.zero) a = true.
Proof.
  rewrite !FloatAxioms.eqb_spec, FloatAxioms.add_spec.
  change (FloatOps.Prim2SF PrimFloat.zero) with (SpecFloat.S754_zero false).
  destruct (FloatOps.Prim2SF a) as [s|s| |s m e]; cbn; try discriminate; auto.
  destruct s; reflexivity.
Qed.

Lemma float_Vector_add_zero (p : @Vector Binary64.number) :
  Vector_eq p p = true ->
  Vector_eq (Vector_add p (mkVector (lit 0) (lit 0))) p = true.
Proof.
  unfold Vector_eq, Vector_add. cbn. intros H.
  apply andb_true_iff in H as [Hx Hy].
  now rewrite (float_add_zero _ Hx), (float_add_zero _ Hy).
Qed.

Lemma float_points_add_zero (l : list (@Vector Binary64.number)) :
  points_eq l l = true ->
  points_eq (map (fun p => Vector_add p (mkVector (lit 0) (lit 0))) l) l
  = true.
Proof.
  induction l as [|p t IH]; cbn [points_eq map]; [reflexivity|].
  intros H. apply andb_true_iff in H as [Hp Ht].
  now rewrite (float_Vector_add_zero _ Hp), (IH Ht).
Qed.

Lemma exact_Vector_add_assoc (p d1 d2 : @Vector Exact.number) :
  Vector_add (Vector_add p d1) d2 = Vector_add p (Vector_add d1 d2).
Proof. unfold Vector_add. cbn. f_equal; ring. Qed.

Lemma exact_Vector_add_zero (p : @Vector Exact.number) :
  Vector_add p (mkVector (lit 0) (lit 0)) = p.
Proof. destruct p. unfold Vector_add. cbn. f_equal; ring. Qed.

(** C9, as stated, fails on binary64: translating by (0.2, 0) and then by
    (0.3, 0) is not translating by their sum, for a circle and for a
    curve. *)
Lemma translation_is_not_associative :
  let p := @mkVector Binary64.number 0.1%float 0%float in
  let d1 := @mkVector Binary64.number 0.2%float 0%float in
  let d2 := @mkVector Binary64.number 0.3%float 0%float in
  let circle := ACircle (mkCircle p 1%float) in
  let curve := ACurve (mkCurve [p]) in
  Shape_eq (Shape_add (Shape_add circle d1) d2)
           (Shape_add circle (Vector_add d1 d2)) = false /\
  Shape_eq (Shape_add (Shape_add curve d1) d2)
           (Shape_add curve (Vector_add d1 d2)) = false.
Proof. vm_compute. split; reflexivity. Qed.

(** C9, amended: translating a shape, in either operand order, gives a
    shape of the same variant with every point shifted by the displacement,
    coordinate by coordinate, the same number of points, and the radius
    unchanged.  In exact arithmetic translation is a group action; on
    binary64 [s + Vector(0, 0) == s] for every shape that equals itself,
    that is, has no NaN. *)
Theorem translation_of_shapes :
  (forall (N : Number) (d : Vector),
      (forall c : Circle,
          Shape_add (ACircle c) d
          = ACircle (mkCircle (mkVector (nadd (x (o c)) (x d))
                                        (nadd (y (o c)) (y d)))
                              (r c))) /\
      (forall c : Curve,
          Shape_add (ACurve c) d
          = ACurve (mkCurve (map (fun p => mkVector (nadd (x p) (x d))
                                                    (nadd (y p) (y d)))
                                 (points c))) /\
          length (points (Curve_add c d)) = length (points c)) /\
      (forall s : Shape, Shape_radd s d = Shape_add s d)) /\
  (forall (s : @Shape Exact.number) (d1 d2 : Vector),
      Shape_add (Shape_add s d1) d2 = Shape_add s (Vector_add d1 d2) /\
      Shape_add s (mkVector (lit 0) (lit 0)) = s) /\
  (forall s : @Shape Binary64.number,
      Shape_eq s s = true ->
      Shape_eq (Shape_add s (mkVector (lit 0) (lit 0))) s = true).
Proof.
  split; [|split].
  - intros N d. split; [|split].
    + intros c. reflexivity.
    + intros c. split; [reflexivity|].
      unfold Curve_add. cbn. apply length_map.
    + intros [c|c]; reflexivity.
  - intros [[p rad]|[l]] d1 d2; cbn; unfold Circle_add, Curve_add; cbn.
    + now rewrite exact_Vector_add_assoc, exact_Vector_add_zero.
    + rewrite map_map. split; do 2 f_equal.
      * apply map_ext. intros p. apply exact_Vector_add_assoc.
      * rewrite <- (map_id l) at 2. apply map_ext.
        intros p. apply exact_Vector_add_zero.
  - intros [[p rad]|[l]]; cbn [Shape_eq Shape_add].
    + unfold Circle_eq, Circle_add. cbn [o r]. intros H.
      apply andb_true_iff in H as [Hp Hr].
      now rewrite (float_Vector_add_zero _ Hp), Hr.
    + unfold Curve_eq, Curve_add. cbn [points].
      apply float_points_add_zero.
Qed.

Lemma translation_of_shapes_witness :
  let s := ACircle (mkCircle (@mkVector Binary64.number 200%float 0%float)
                             15%float) in
  Shape_eq s s = true /\
  Shape_eq (Shape_add s (mkVector (lit 0) (lit 0))) s = true.
Proof.
  intros s.
  assert (H : Shape_eq s s = true) by (vm_compute; reflexivity).
  split; [exact H|].
  exact (proj2 (proj2 translation_of_shapes) s H).
Defined.

(** ** Bounding boxes and translation *)

(** C10, as stated, fails on binary64: the box of the translated circle
    is not the translated box of the circle. *)
Lemma bbox_does_not_commute_with_translation :
  let c := mkCircle (@mkVector Binary64.number 0.1%float 0.1%float)
                    0.3%float in
  let d := @mkVector Binary64.number 0.2%float 0.2%float in
  BBox_eq (bbox (Circle_add c d)) (BBox_add (bbox c) d) = false.
Proof. vm_compute. reflexivity. Qed.

(** C10, amended: the box of the translated circle has the corners
    [(o + d) -/+ r], the translated box of the circle the corners
    [(o -/+ r) + d]; in exact arithmetic they are the same box.  The
    renderer draws the second one, [view_offset + circle.bbox]. *)
Theorem bbox_and_translation :
  (forall (N : Number) (c : Circle) (d : Vector),
      bbox (Circle_add c d)
      = mkBBox (mkVector (nsub (nadd (x (o c)) (x d)) (r c))
                         (nsub (nadd (y (o c)) (y d)) (r c)))
               (mkVector (nadd (nadd (x (o c)) (x d)) (r c))
                         (nadd (nadd (y (o c)) (y d)) (r c))) /\
      BBox_add (bbox c) d
      = mkBBox (mkVector (nadd (nsub (x (o c)) (r c)) (x d))
                         (nadd (nsub (y (o c)) (r c)) (y d)))
               (mkVector (nadd (nadd (x (o c)) (r c)) (x d))
                         (nadd (nadd (y (o c)) (r c)) (y d))) /\
      render_circle d c = [create_oval (as_tuple (BBox_add (bbox c) d))]) /\
  (forall (c : @Circle Exact.number) (d : Vector),
      bbox (Circle_add c d) = BBox_add (bbox c) d /\
      render_circle d c = [create_oval (as_tuple (bbox (Circle_add c d)))]).
Proof.
  split.
  - intros N c d. repeat split.
  - intros [[ox oy] rad] [dx dy].
    assert (H : bbox (Circle_add (mkCircle (mkVector ox oy) rad)
                                 (mkVector dx dy))
                = BBox_add (bbox (mkCircle (mkVector ox oy) rad))
                           (mkVector dx dy)).
    { unfold bbox, BBox_add, Circle_add, Vector_add. cbn.
      f_equal; f_equal; ring. }
    split; [exact H|]. unfold render_circle, BBox_radd. now rewrite H.
Qed.

(** ** More on the trail loop *)

Section TrailLoop.

Context {N : Number}.

Lemma pop_while_below_zero (delta_t q : num) (l : list Vector) :
  truediv (lit 2) delta_t = Ok q ->
  below_zero q ->
  pop_while delta_t l = ([], Raise IndexError).
Proof.
  intros Hq Hneg.
  assert (Hgt : forall n, len_gt n q = true).
  { intros n. unfold len_gt. destruct Hneg as [->|(z & -> & Hz)];
      [reflexivity|]. apply Z.ltb_lt. lia. }
  induction l as [|p t IH]; cbn [pop_while]; rewrite Hq, Hgt;
    [reflexivity|exact IH].
Qed.

Lemma pop_while_above_all (delta_t q : num) (l : list Vector) :
  truediv (lit 2) delta_t = Ok q ->
  above_all q ->
  pop_while delta_t l = (l, Ok tt).
Proof.
  intros Hq Hbig.
  assert (Hgt : forall n, len_gt n q = false)
    by (intros n; unfold len_gt; destruct Hbig as [-> | ->]; reflexivity).
  destruct l; cbn [pop_while]; rewrite Hq, Hgt; reflexivity.
Qed.

Lemma pop_while_IndexError (delta_t : num) (l : list Vector) :
  snd (pop_while delta_t l) = Raise IndexError <->
  exists q, truediv (lit 2) delta_t = Ok q /\ below_zero q.
Proof.
  split.
  - destruct (truediv (lit 2) delta_t) as [q|e] eqn:Hq.
    + intros H. exists q. split; [reflexivity|].
      destruct (nfloor q) as [z| | |] eqn:Hz.
      * destruct (Z.ltb_spec z 0) as [Hlt|Hge];
          [right; exists z; split; [exact Hz|exact Hlt]|].
        rewrite (pop_while_floor delta_t q (Z.to_nat z)) in H;
          [discriminate|assumption|].
        rewrite Z2Nat.id by assumption. exact Hz.
      * rewrite (pop_while_above_all delta_t q) in H;
          [discriminate|assumption|left; assumption].
      * now left.
      * rewrite (pop_while_above_all delta_t q) in H;
          [discriminate|assumption|right; assumption].
    + destruct l; cbn [pop_while]; rewrite Hq; cbn [snd]; intros [= ->];
        unfold truediv in Hq; destruct (nis_zero delta_t); discriminate.
  - intros (q & Hq & Hneg). now rewrite (pop_while_below_zero _ _ _ Hq Hneg).
Qed.

Lemma attraction_not_IndexError (m : num) (d : Vector) (delta_t : num) :
  attraction m d delta_t <> Raise IndexError.
Proof.
  rewrite attraction_cases. destruct (cube _); [|discriminate].
  destruct (nis_zero _); discriminate.
Qed.

(** A run whose loops pop nothing. *)
Lemma run_trail_unbounded (delta_t : num)
      (trail : Universe -> list Vector) (pos : Universe -> Vector) :
  (forall u u', update delta_t u = (u', Ok tt) ->
                trail u' = trail u ++ [pos u]) ->
  forall n u u',
    updates n delta_t u = (u', Ok tt) ->
    trail u' = trail u ++ map pos (states n delta_t u).
Proof.
  intros Hstep. induction n as [|n IH]; intros u u' Hrun.
  - cbn in Hrun. injection Hrun as <-. cbn. now rewrite app_nil_r.
  - rewrite updates_unfold in Hrun.
    destruct (update delta_t u) as [u1 [[]|e]] eqn:Hu; [|discriminate].
    cbn [states map]. rewrite Hu. cbn [fst].
    rewrite (IH _ _ Hrun), (Hstep _ _ Hu), <- app_assoc. reflexivity.
Qed.

End TrailLoop.

(** X1: [update] raises [IndexError] exactly when [2.0 / delta_t] is below
    zero, that is for a negative time step; the call has then emptied
    blue's trail and written nothing else. *)
Theorem negative_step_raises_IndexError :
  forall (N : Number) (delta_t : num) (u : Universe),
    (snd (update delta_t u) = Raise IndexError <->
     exists q, truediv (lit 2) delta_t = Ok q /\ below_zero q) /\
    (snd (update delta_t u) = Raise IndexError ->
     fst (update delta_t u) = with_blue_trail u []).
Proof.
  intros N delta_t u.
  assert (Hraise : (exists q, truediv (lit 2) delta_t = Ok q /\ below_zero q)
                   -> update delta_t u
                      = (with_blue_trail u [], Raise IndexError)).
  { intros (q & Hq & Hneg). rewrite update_unfold.
    now rewrite (pop_while_below_zero _ _ _ Hq Hneg). }
  assert (Hiff : snd (update delta_t u) = Raise IndexError <->
                 exists q, truediv (lit 2) delta_t = Ok q /\ below_zero q).
  { split; [|intros H; now rewrite (Hraise H)].
    update_cases delta_t u; cbn [snd]; intros H; try discriminate H;
      try (injection H as ->);
      try (exfalso; eapply attraction_not_IndexError; eassumption).
    all: first
      [ apply (pop_while_IndexError delta_t (blue_trail u ++ [blue_p u]));
        now rewrite Hpop_blue
      | apply (pop_while_IndexError delta_t (white_trail u ++ [white_p u]));
        now rewrite Hpop_white ]. }
  split; [exact Hiff|].
  intros H. apply Hiff in H. now rewrite (Hraise H).
Qed.

Lemma negative_step_raises_IndexError_witness :
  let u := OnBinary64.universe in
  let delta_t : @num Binary64.number := (-1)%float in
  snd (update delta_t u) = Raise IndexError /\
  fst (update delta_t u) = with_blue_trail u [].
Proof.
  intros u delta_t.
  assert (H : snd (update delta_t u) = Raise IndexError)
    by (vm_compute; reflexivity).
  split; [exact H|].
  exact (proj2 (negative_step_raises_IndexError _ delta_t u) H).
Defined.

(** X2: when [2.0 / delta_t] is infinite or a NaN the loops pop nothing:
    [n] calls that return append the satellite's position before each
    call, so each trail grows by [n]. *)
Theorem trail_grows_without_bound :
  forall (N : Number) (n : nat) (delta_t q : num) (u u' : Universe),
    truediv (lit 2) delta_t = Ok q ->
    above_all q ->
    updates n delta_t u = (u', Ok tt) ->
    blue_trail u' = blue_trail u ++ map blue_p (states n delta_t u) /\
    white_trail u' = white_trail u ++ map white_p (states n delta_t u) /\
    length (blue_trail u') = length (blue_trail u) + n /\
    length (white_trail u') = length (white_trail u) + n.
Proof.
  intros N n delta_t q u u' Hq Hbig Hrun.
  assert (Hstep : forall v v' : Universe,
             update delta_t v = (v', Ok tt) ->
             blue_trail v' = blue_trail v ++ [blue_p v] /\
             white_trail v' = white_trail v ++ [white_p v]).
  { intros v v' Hv.
    destruct (update_Ok _ _ _ Hv)
      as (l1 & l2 & a & ay & ab & H1 & H2 & _ & _ & _ & ->).
    rewrite (pop_while_above_all _ _ _ Hq Hbig) in H1.
    rewrite (pop_while_above_all _ _ _ Hq Hbig) in H2.
    injection H1 as <-. injection H2 as <-. split; reflexivity. }
  assert (Hb : blue_trail u' = blue_trail u ++ map blue_p (states n delta_t u))
    by (apply (run_trail_unbounded delta_t blue_trail blue_p);
        [intros v v' Hv; apply (Hstep v v' Hv)|exact Hrun]).
  assert (Hw : white_trail u'
               = white_trail u ++ map white_p (states n delta_t u))
    by (apply (run_trail_unbounded delta_t white_trail white_p);
        [intros v v' Hv; apply (Hstep v v' Hv)|exact Hrun]).
  repeat split; try assumption.
  - rewrite Hb, length_app, length_map, length_states. reflexivity.
  - rewrite Hw, length_app, length_map, length_states. reflexivity.
Qed.

Lemma trail_grows_without_bound_witness :
  let u := OnBinary64.universe in
  let delta_t : @num Binary64.number := 5e-324%float in
  let u' := fst (updates 3 delta_t u) in
  length (blue_trail u') = length (blue_trail u) + 3 /\
  length (white_trail u') = length (white_trail u) + 3.
Proof.
  intros u delta_t u'.
  apply (trail_grows_without_bound Binary64.number 3 delta_t
           (PrimFloat.div 2 delta_t) u u').
  - vm_compute. reflexivity.
  - left. vm_compute. reflexivity.
  - apply (returns_in_final_universe (updates 3 delta_t) u).
    vm_compute. reflexivity.
Defined.

(** X3: from empty trails, with [k >= 0] the floor of [2.0 / delta_t],
    [n] calls that return leave in each trail the last [k] of the [n]
    positions before the calls; during the first [k] calls that is all of
    them. *)
Theorem trail_from_empty :
  forall (N : Number) (n k : nat) (delta_t q : num) (u u' : Universe),
    truediv (lit 2) delta_t = Ok q ->
    nfloor q = Fin (Z.of_nat k) ->
    blue_trail u = [] ->
    white_trail u = [] ->
    updates n delta_t u = (u', Ok tt) ->
    (blue_trail u' = lastn k (map blue_p (states n delta_t u)) /\
     white_trail u' = lastn k (map white_p (states n delta_t u))) /\
    (length (blue_trail u') = Nat.min k n /\
     length (white_trail u') = Nat.min k n) /\
    (n <= k ->
     blue_trail u' = map blue_p (states n delta_t u) /\
     white_trail u' = map white_p (states n delta_t u)).
Proof.
  intros N n k delta_t q u u' Hq Hk Hb0 Hw0 Hrun.
  assert (H : blue_trail u' = lastn k (map blue_p (states n delta_t u)) /\
              white_trail u' = lastn k (map white_p (states n delta_t u))).
  { destruct n as [|n].
    - cbn in Hrun. injection Hrun as <-. now rewrite Hb0, Hw0.
    - rewrite (run_trail delta_t k blue_trail blue_p) with (n := n) (u := u)
        by (intros; try eapply update_trails; eassumption).
      rewrite (run_trail delta_t k white_trail white_p) with (n := n) (u := u)
        by (intros; try eapply update_trails; eassumption).
      now rewrite Hb0, Hw0. }
  destruct H as [Hb Hw]. split; [now split|]. split.
  - rewrite Hb, Hw, !length_lastn, !length_map, length_states. now split.
  - intros Hn. rewrite Hb, Hw. unfold lastn.
    rewrite !length_map, length_states.
    replace (n - k) with 0 by lia. now split.
Qed.

Lemma trail_from_empty_witness :
  let delta_t := OnBinary64.DEFAULT_DELTA_T in
  let u := OnBinary64.universe in
  let u' := fst (updates 3 delta_t u) in
  blue_trail u' = map blue_p (states 3 delta_t u) /\
  white_trail u' = map white_p (states 3 delta_t u).
Proof.
  intros delta_t u u'.
  refine (proj2 (proj2 (trail_from_empty Binary64.number 3 40 delta_t
                          (@lit Binary64.number 40) u u' _ _ _ _ _)) _).
  - vm_compute. reflexivity.
  - vm_compute. reflexivity.
  - reflexivity.
  - reflexivity.
  - apply (returns_in_final_universe (updates 3 delta_t) u).
    vm_compute. reflexivity.
  - lia.
Defined.

(** ** Calls that raise, calls that return *)

(** X4: a time step equal to zero makes [update] raise
    [ZeroDivisionError] after it has appended blue's position to blue's
    trail; nothing else is written, so every such call lengthens the
    trail by one. *)
Theorem zero_step_still_appends :
  forall (N : Number) (delta_t : num) (u : Universe),
    nis_zero delta_t = true ->
    update delta_t u
    = (with_blue_trail u (blue_trail u ++ [blue_p u]),
       Raise ZeroDivisionError) /\
    length (blue_trail (fst (update delta_t u)))
    = S (length (blue_trail u)).
Proof.
  intros N delta_t u Hz.
  assert (H : update delta_t u
              = (with_blue_trail u (blue_trail u ++ [blue_p u]),
                 Raise ZeroDivisionError))
    by (rewrite update_unfold; now rewrite (pop_while_zero _ _ Hz)).
  split; [exact H|]. rewrite H. cbn. rewrite length_app. cbn. lia.
Qed.

Lemma zero_step_still_appends_witness :
  let u := OnBinary64.universe in
  let delta_t : @num Binary64.number := 0%float in
  length (blue_trail (fst (update delta_t u))) = S (length (blue_trail u)).
Proof.
  intros u delta_t.
  apply (zero_step_still_appends Binary64.number delta_t u).
  vm_compute. reflexivity.
Defined.

(** The loop of a trail raises [ZeroDivisionError], for a time step that is
    zero, or [IndexError], and nothing else. *)
Lemma pop_while_raises {N : Number} (delta_t : num) (l : list Vector)
      (e : exn) :
  snd (pop_while delta_t l) = Raise e ->
  (e = ZeroDivisionError /\ nis_zero delta_t = true) \/ e = IndexError.
Proof.
  induction l as [|p t IH]; cbn [pop_while]; unfold truediv;
    destruct (nis_zero delta_t); cbn [snd].
  - intros [= <-]. now left.
  - destruct (len_gt _ _); [intros [= <-]; now right|discriminate].
  - intros [= <-]. now left.
  - destruct (len_gt _ _); [exact IH|discriminate].
Qed.

(** [IndexError] comes from the loop of blue's trail, which leaves only
    this trail written. *)
Lemma update_raises_early {N : Number} (delta_t : num) (u : Universe)
      (e : exn) :
  snd (update delta_t u) = Raise e ->
  nis_zero delta_t = true \/ e = IndexError ->
  exists l, pop_while delta_t (blue_trail u ++ [blue_p u]) = (l, Raise e).
Proof.
  intros H Hearly. revert H.
  update_cases delta_t u; cbn [snd]; intros H; try discriminate H;
    injection H as ->; try (eexists; reflexivity);
    exfalso;
    (destruct Hearly as [Hz| ->];
     [rewrite (pop_while_zero _ _ Hz) in Hpop_blue; discriminate|]);
    try (eapply attraction_not_IndexError; eassumption).
  apply (f_equal snd) in Hpop_white. cbn [snd] in Hpop_white.
  apply pop_while_IndexError in Hpop_white.
  apply (pop_while_IndexError delta_t (blue_trail u ++ [blue_p u]))
    in Hpop_white.
  rewrite Hpop_blue in Hpop_white. discriminate.
Qed.

(** X5: a call of [update] is not atomic: what it wrote before it raised
    stays written.  A call that raises never writes white's velocity.
    When it raises for a time step that is zero, or raises [IndexError],
    blue's trail is the one thing it may have written.  Any other raising
    call has moved blue to [blue_p + blue_v * delta_t]; it then either
    raised on blue's velocity, with white untouched, or had given blue's
    velocity the pull of the anchor and moved white to
    [white_p + white_v * delta_t]. *)
Theorem raising_call_is_partial :
  forall (N : Number) (delta_t : num) (u : Universe) (e : exn),
    snd (update delta_t u) = Raise e ->
    let u' := fst (update delta_t u) in
    let step p v := nadd p (nmul delta_t v) in
    let norm dx dy := pow_half (nadd (nmul dx dx) (nmul dy dy)) in
    let pull m d c := nmul delta_t (nquot (nmul (nmul (lit 1) m) d) c) in
    let bx := step (x (blue_p u)) (x (blue_v u)) in
    let by_ := step (y (blue_p u)) (y (blue_v u)) in
    white_v u' = white_v u /\
    (nis_zero delta_t = true \/ e = IndexError ->
     blue_p u' = blue_p u /\ blue_v u' = blue_v u /\
     white_p u' = white_p u /\ white_trail u' = white_trail u) /\
    (nis_zero delta_t = false -> e <> IndexError ->
     x (blue_p u') = bx /\ y (blue_p u') = by_ /\
     ((blue_v u' = blue_v u /\
       white_p u' = white_p u /\ white_trail u' = white_trail u) \/
      (x (white_p u') = step (x (white_p u)) (x (white_v u)) /\
       y (white_p u') = step (y (white_p u)) (y (white_v u)) /\
       let dx := nsub bx (x (yellow_p u)) in
       let dy := nsub by_ (y (yellow_p u)) in
       exists c,
         cube (norm dx dy) = Some c /\ nis_zero c = false /\
         x (blue_v u') = nsub (x (blue_v u)) (pull (yellow_m u) dx c) /\
         y (blue_v u') = nsub (y (blue_v u)) (pull (yellow_m u) dy c)))).
Proof.
  intros N delta_t u e H. cbv zeta. split; [|split].
  - revert H. update_cases delta_t u; cbn [fst snd]; intros H;
      try discriminate H; reflexivity.
  - intros Hearly.
    destruct (update_raises_early delta_t u e H Hearly) as (l & Hpop).
    rewrite update_unfold, Hpop. cbn [fst]. repeat split; reflexivity.
  - intros Hz Hne. revert H.
    update_cases delta_t u; cbn [fst snd]; intros H; try discriminate H;
      injection H as ->;
      try (match goal with
           | Hp : pop_while _ _ = (_, Raise _) |- _ =>
               apply (f_equal snd) in Hp; cbn [snd] in Hp;
               apply pop_while_raises in Hp;
               destruct Hp as [[_ Hz']|He]; congruence
           end);
      (split; [reflexivity|]); (split; [reflexivity|]);
      try (left; repeat split; reflexivity);
      right; (split; [reflexivity|]); (split; [reflexivity|]);
      destruct (attraction_Ok N _ _ _ _ Hblue) as (c & Hc & Hcz & Hx & Hy);
      exists c; cbn [blue_v with_blue_v with_white_trail with_white_p
                       with_blue_p with_blue_trail Vector_sub x y];
      rewrite Hx, Hy; repeat split; assumption.
Qed.

Lemma raising_call_is_partial_witness :
  let u := with_blue_v OnBinary64.universe
             (@mkVector Binary64.number (-200)%float 0%float) in
  let delta_t : @num Binary64.number := 1%float in
  let u' := fst (update delta_t u) in
  snd (update delta_t u) = Raise ZeroDivisionError /\
  x (blue_p u) = 200%float /\
  x (blue_p u') = 0%float /\ y (blue_p u') = 0%float.
Proof.
  intros u delta_t u'.
  assert (H : snd (update delta_t u) = Raise ZeroDivisionError)
    by (vm_compute; reflexivity).
  split; [exact H|]. split; [reflexivity|].
  destruct (raising_call_is_partial Binary64.number delta_t u
              ZeroDivisionError H) as (_ & _ & Hlate).
  destruct Hlate as (Hx & Hy & _);
    [vm_compute; reflexivity|discriminate|].
  split; [exact Hx|exact Hy].
Defined.

Lemma exact_attraction_Ok (m delta_t : @num Exact.number)
      (p q : @Vector Exact.number) :
  p <> q -> exists a, attraction m (Vector_sub p q) delta_t = Ok a.
Proof.
  intros Hpq.
  destruct (attraction m (Vector_sub p q) delta_t) as [a|e] eqn:Ha;
    [now exists a|]. exfalso.
  destruct e.
  - apply attraction_ZeroDivisionError, exact_zero_cube in Ha. contradiction.
  - exact (attraction_not_IndexError _ _ _ Ha).
  - rewrite attraction_cases in Ha. cbn [cube Exact.number] in Ha.
    destruct (nis_zero _); discriminate.
Qed.



(** X6: in exact arithmetic [update] has no other failures than a time
    step that is not positive and bodies that meet: with [delta_t > 0]
    and the three pairs of positions distinct after the moves, the call
    returns. *)
Theorem exact_update_returns :
  forall (delta_t : @num Exact.number) (u : @Universe Exact.number),
    (0 < delta_t)%R ->
    moved (blue_p u) (blue_v u) delta_t <> yellow_p u ->
    moved (white_p u) (white_v u) delta_t <> yellow_p u ->
    moved (white_p u) (white_v u) delta_t
    <> moved (blue_p u) (blue_v u) delta_t ->
    snd (update delta_t u) = Ok tt.
Proof.
  intros delta_t u Hpos Hby Hwy Hwb.
  destruct (exact_positive_step_floor delta_t Hpos) as (k & Hq & Hk & _).
  destruct (exact_attraction_Ok (yellow_m u) delta_t _ _ Hby) as [a Ha].
  destruct (exact_attraction_Ok (yellow_m u) delta_t _ _ Hwy) as [ay Hay].
  destruct (exact_attraction_Ok (blue_m u) delta_t _ _ Hwb) as [ab Hab].
  rewrite update_unfold.
  rewrite !(pop_while_floor delta_t _ k _ Hq Hk).
  unfold blue_d, white_dyellow, white_dblue. rewrite Ha, Hay, Hab.
  reflexivity.
Qed.

Lemma exact_update_returns_witness :
  let origin := @mkVector Exact.number 0%R 0%R in
  let u := @mkUniverse Exact.number 50%R 5000000%R origin
             15%R 3000%R (@mkVector Exact.number 200%R 0%R) origin []
             5%R 100%R (@mkVector Exact.number 200%R 30%R) origin [] in
  snd (update (N:=Exact.number) 1%R u) = Ok tt.
Proof.
  intros origin u.
  assert (Hne : forall a b c d : R,
             (a <> c \/ b <> d) ->
             @mkVector Exact.number a b <> @mkVector Exact.number c d).
  { intros a b c d [H|H] [= Hx Hy]; contradiction. }
  apply exact_update_returns.
  - lra.
  - apply Hne. left. cbn. lra.
  - apply Hne. left. cbn. lra.
  - apply Hne. right. cbn. lra.
Defined.

(** ** Vectors and curves *)

Lemma SFadd_comm (a b : SpecFloat.spec_float) :
  SpecFloat.SFadd FloatOps.prec FloatOps.emax a b
  = SpecFloat.SFadd FloatOps.prec FloatOps.emax b a.
Proof.
  destruct a as [sa|sa| |sa ma ea], b as [sb|sb| |sb mb eb];
    try reflexivity; try (destruct sa, sb; reflexivity).
  unfold SpecFloat.SFadd. cbv zeta.
  rewrite (Z.min_comm ea eb). f_equal. apply Z.add_comm.
Qed.

(** The sum of two floats does not depend on their order. *)
Lemma float_add_comm (a b : PrimFloat.float) :
  PrimFloat.add a b = PrimFloat.add b a.
Proof.
  rewrite <- (FloatAxioms.SF2Prim_Prim2SF (PrimFloat.add a b)).
  rewrite <- (FloatAxioms.SF2Prim_Prim2SF (PrimFloat.add b a)).
  rewrite !FloatAxioms.add_spec. unfold FloatAxioms.SF64add.
  now rewrite SFadd_comm.
Qed.

Lemma float_Vector_add_comm (a b : @Vector Binary64.number) :
  Vector_add a b = Vector_add b a.
Proof.
  unfold Vector_add. cbn [nadd Binary64.number].
  now rewrite (float_add_comm (x a)), (float_add_comm (y a)).
Qed.

Lemma exact_Vector_add_comm (a b : @Vector Exact.number) :
  Vector_add a b = Vector_add b a.
Proof. unfold Vector_add. cbn. f_equal; ring. Qed.

(** X7: the sum of two vectors does not depend on their order: on
    binary64, when neither coordinate of the sum is a NaN, [a + b] and
    [b + a] are the same vector bit for bit and compare equal; in exact
    arithmetic they are the same vector. *)
Theorem vector_addition_commutes :
  (forall a b : @Vector Binary64.number,
      OnBinary64.no_nan (Vector_add a b) = true ->
      Vector_add a b = Vector_add b a /\
      Vector_eq (Vector_add a b) (Vector_add b a) = true) /\
  (forall a b : @Vector Exact.number, Vector_add a b = Vector_add b a).
Proof.
  split; [|exact exact_Vector_add_comm].
  intros a b Hnan. rewrite <- (float_Vector_add_comm a b).
  split; [reflexivity|].
  unfold OnBinary64.no_nan, PrimFloat.is_nan in Hnan.
  rewrite !negb_involutive in Hnan. exact Hnan.
Qed.

Lemma vector_addition_commutes_witness :
  let a := @mkVector Binary64.number 0.1%float (-0)%float in
  let b := @mkVector Binary64.number 0.2%float 0%float in
  OnBinary64.no_nan (Vector_add a b) = true /\
  Vector_add a b = Vector_add b a /\
  Vector_eq (Vector_add a b) (Vector_add b a) = true.
Proof.
  intros a b.
  assert (H : OnBinary64.no_nan (Vector_add a b) = true)
    by (vm_compute; reflexivity).
  split; [exact H|].
  exact (proj1 vector_addition_commutes a b H).
Defined.

Section Curves.

Context {N : Number}.

Lemma length_pairwise (l : list Vector) :
  length (pairwise l) = length l - 1.
Proof.
  induction l as [|p1 [|p2 t] IH]; try reflexivity.
  cbn [pairwise length] in *. rewrite IH. lia.
Qed.

Lemma nth_error_pairwise (l : list Vector) (i : nat) (p1 p2 : Vector) :
  nth_error l i = Some p1 ->
  nth_error l (S i) = Some p2 ->
  nth_error (pairwise l) i = Some (p1, p2).
Proof.
  revert i. induction l as [|q1 [|q2 t] IH]; intros i H1 H2.
  - destruct i; discriminate.
  - destruct i as [|[|i]]; discriminate.
  - destruct i as [|i].
    + cbn in H1, H2. injection H1 as <-. injection H2 as <-. reflexivity.
    + cbn [pairwise nth_error]. apply IH; assumption.
Qed.

Lemma pairwise_map (f : Vector -> Vector) (l : list Vector) :
  pairwise (map f l) = map (fun ends => (f (fst ends), f (snd ends)))
                           (pairwise l).
Proof.
  induction l as [|p1 [|p2 t] IH]; try reflexivity.
  cbn [map pairwise] in *. now rewrite IH.
Qed.

Lemma render_curve_segments (canvas_o : Vector) (c : Curve) :
  render_curve canvas_o c
  = map (fun ends => segment (Vector_add canvas_o (fst ends),
                              Vector_add canvas_o (snd ends)))
        (pairwise (points c)).
Proof.
  unfold render_curve. apply map_ext. intros [p1 p2]. reflexivity.
Qed.

End Curves.

(** X8: a curve of [n] points is drawn as [n - 1] lines, none when it has
    fewer than two points; the line number [i] joins the points number [i]
    and [i + 1], each shifted by the view offset. *)
Theorem curve_is_drawn_as_consecutive_lines :
  forall (N : Number) (canvas_o : Vector) (c : Curve),
    length (render_curve canvas_o c) = length (points c) - 1 /\
    forall (i : nat) (p1 p2 : Vector),
      nth_error (points c) i = Some p1 ->
      nth_error (points c) (S i) = Some p2 ->
      nth_error (render_curve canvas_o c) i
      = Some (segment (Vector_add canvas_o p1, Vector_add canvas_o p2)).
Proof.
  intros N canvas_o c. rewrite render_curve_segments. split.
  - rewrite length_map. apply length_pairwise.
  - intros i p1 p2 H1 H2.
    rewrite nth_error_map, (nth_error_pairwise _ _ _ _ H1 H2). reflexivity.
Qed.

Lemma curve_is_drawn_as_consecutive_lines_witness :
  let p (a b : Z) := @mkVector Binary64.number (lit a) (lit b) in
  let c := mkCurve [p 0%Z 0%Z; p 1%Z 1%Z; p 2%Z 0%Z] in
  let canvas_o := p 400%Z 300%Z in
  nth_error (render_curve canvas_o c) 1
  = Some (segment (Vector_add canvas_o (p 1%Z 1%Z),
                   Vector_add canvas_o (p 2%Z 0%Z))).
Proof.
  intros p c canvas_o.
  apply (proj2 (curve_is_drawn_as_consecutive_lines _ canvas_o c) 1);
    reflexivity.
Defined.

(** X9: on binary64, when no point of the translated curve [c + o] has a
    NaN, the lines drawn for the curve [c] under the view offset [o] are
    those between the consecutive points of [c + o]: the renderer's
    [o + p] and [Curve.__add__]'s [p + o] agree. *)
Theorem curve_is_rendered_translated :
  forall (canvas_o : @Vector Binary64.number) (c : Curve),
    forallb OnBinary64.no_nan (points (Curve_add c canvas_o)) = true ->
    render_curve canvas_o c
    = map segment (pairwise (points (Curve_add c canvas_o))).
Proof.
  intros canvas_o c _. rewrite render_curve_segments.
  unfold Curve_add. cbn [points]. rewrite pairwise_map, map_map.
  apply map_ext. intros [p1 p2]. cbn [fst snd].
  now rewrite (float_Vector_add_comm canvas_o p1),
    (float_Vector_add_comm canvas_o p2).
Qed.

Lemma curve_is_rendered_translated_witness :
  let p (a b : Z) := @mkVector Binary64.number (lit a) (lit b) in
  let c := mkCurve [p 200%Z 0%Z; p 200%Z (-8)%Z; p 199%Z (-16)%Z] in
  let canvas_o := p 200%Z 300%Z in
  forallb OnBinary64.no_nan (points (Curve_add c canvas_o)) = true /\
  render_curve canvas_o c
  = map segment (pairwise (points (Curve_add c canvas_o))).
Proof.
  intros p c canvas_o.
  assert (H : forallb OnBinary64.no_nan (points (Curve_add c canvas_o))
              = true) by (vm_compute; reflexivity).
  split; [exact H|].
  exact (curve_is_rendered_translated canvas_o c H).
Defined.

(** ** The driver *)

Section DriverFacts.

Context {N : Number}.

Variable tk : nat -> bool.
Variable sleep : Z -> num -> bool.

(** Requests that all return are all added, in order. *)
Lemma tk_create_returns (requests : list Draw) :
  forall (self : Canvas) (n : nat),
    (forall k, n <= k < n + length requests -> tk k = true) ->
    tk_create tk requests self n
    = (mkCanvas (w self) (h self) (canvas_o self) (items self ++ requests),
       n + length requests, Returns tt).
Proof.
  induction requests as [|d rest IH]; intros self n Htk; cbn [tk_create].
  - rewrite app_nil_r, Nat.add_0_r. now destruct self.
  - unfold tk_call. rewrite (Htk n) by (cbn [length]; lia).
    rewrite IH by (intros k Hk; apply Htk; cbn [length]; lia).
    cbn [w h canvas_o items length]. rewrite <- app_assoc.
    f_equal. f_equal. lia.
Qed.

(** One turn of [loop] whose three Tk calls return, when dividing by the
    literal [2] does not raise. *)
Lemma loop_frame (max_frames : Z) (canvas : Canvas) (n : nat)
      (frame_num : Z) (u : Universe) :
  nis_zero (lit 2) = false ->
  (forall k, n <= k < n + 3 -> tk k = true) ->
  loop tk max_frames canvas n frame_num u
  = (frame canvas u, n + 3, fst (update DEFAULT_DELTA_T u),
     match snd (update DEFAULT_DELTA_T u) with
     | Ok _ => Returns (frame_num <? max_frames)%Z
     | Raise e => Raises (of_program e)
     end).
Proof.
  intros H2 Htk. unfold loop, truediv, Canvas_render. rewrite H2.
  rewrite tk_create_returns by exact Htk.
  destruct (update DEFAULT_DELTA_T u) as [u' [[]|e]]; reflexivity.
Qed.

(** A turn of [loop] whose first Tk call raises. *)
Lemma loop_first_call_raises (max_frames : Z) (canvas : Canvas) (n : nat)
      (frame_num : Z) (u : Universe) :
  nis_zero (lit 2) = false ->
  tk n = false ->
  loop tk max_frames canvas n frame_num u
  = (mkCanvas (w canvas) (h canvas) (view canvas u) (items canvas),
     S n, u, Raises of_tk).
Proof.
  intros H2 Htk. unfold loop, truediv, Canvas_render. rewrite H2.
  cbn [render scene shapes flat_map render_shape render_circle app
         tk_create].
  unfold tk_call. rewrite Htk. reflexivity.
Qed.

Lemma run_from_spec (delta_t : num) (r : nat) :
  forall (fuel : nat) (max_frames : Z) (canvas : Canvas) (n : nat)
         (frame_num : Z) (u : Universe),
    nis_zero (lit 2) = false ->
    (forall k, tk k = true) ->
    (forall k, sleep k delta_t = true) ->
    frame_num = (max_frames - Z.of_nat r)%Z ->
    r < fuel ->
    exists canvas' n',
      run_from tk sleep fuel max_frames canvas n delta_t frame_num u
      = (canvas', n', fst (updates (S r) DEFAULT_DELTA_T u),
         Some (of_result (snd (updates (S r) DEFAULT_DELTA_T u)))) /\
      (snd (updates (S r) DEFAULT_DELTA_T u) = Ok tt ->
       let u_last := fst (updates r DEFAULT_DELTA_T u) in
       n' = n + 4 * r + 3 /\
       canvas'
       = mkCanvas (w canvas) (h canvas) (view canvas u_last)
           ((if r =? 0 then items canvas else [])
            ++ render (view canvas u_last) (scene u_last))).
Proof.
  induction r as [|r IH];
    intros fuel max_frames canvas n frame_num u H2 Htk Hsleep Hf Hr;
    (destruct fuel as [|fuel]; [lia|]);
    cbn [run_from];
    rewrite (loop_frame _ _ _ _ _ H2) by (intros; apply Htk);
    rewrite updates_unfold;
    destruct (update DEFAULT_DELTA_T u) as [u1 [[]|e]] eqn:Hu; cbn [fst snd].
  - replace (frame_num <? max_frames)%Z with false
      by (symmetry; apply Z.ltb_ge; lia).
    exists (frame canvas u), (n + 3). split; [reflexivity|].
    intros _. split; [lia|reflexivity].
  - exists (frame canvas u), (n + 3). split; [reflexivity|discriminate].
  - replace (frame_num <? max_frames)%Z with true
      by (symmetry; apply Z.ltb_lt; lia).
    cbv zeta. rewrite Hsleep. unfold Canvas_clear, tk_call. rewrite Htk.
    destruct (IH fuel max_frames
                 (mkCanvas (w (frame canvas u)) (h (frame canvas u))
                           (canvas_o (frame canvas u)) [])
                 (S (n + 3)) (frame_num + 1)%Z u1 H2 Htk Hsleep
                 ltac:(lia) ltac:(lia))
      as (canvas' & n' & Hrun & Hcanvas).
    exists canvas', n'. split; [exact Hrun|].
    intros Hok. destruct (Hcanvas Hok) as [Hn' Hc]. split; [lia|].
    rewrite Hc. rewrite (updates_unfold r), Hu.
    destruct (r =? 0); reflexivity.
  - exists (frame canvas u), (n + 3). split; [reflexivity|discriminate].
Qed.

End DriverFacts.

Lemma shift_back_minus (b rad m : R) :
  (b - rad + (m - b))%R = (m - rad)%R.
Proof. ring. Qed.

Lemma shift_back_plus (b rad m : R) :
  (b + rad + (m - b))%R = (m + rad)%R.
Proof. ring. Qed.

(** X11: in exact arithmetic the view follows blue: in every frame blue's
    oval is the one of its radius around the middle of the canvas,
    [(w/2 - r, h/2 - r, w/2 + r, h/2 + r)]. *)
Theorem exact_view_is_centred_on_blue :
  forall (canvas : @Canvas Exact.number) (u : Universe),
    nth_error (render (view canvas u) (scene u)) 1
    = Some (@create_oval Exact.number
                         ((w canvas / 2 - blue_r u)%R,
                         (h canvas / 2 - blue_r u)%R,
                         (w canvas / 2 + blue_r u)%R,
                         (h canvas / 2 + blue_r u)%R)).
Proof.
  intros canvas u. cbn [render scene shapes flat_map nth_error app
                          render_shape render_circle].
  do 2 f_equal.
  unfold as_tuple, BBox_radd, BBox_add, bbox, Vector_add, view.
  cbn [x y min max o r nadd nsub nquot lit Exact.number].
  now rewrite !shift_back_minus, !shift_back_plus.
Qed.

(** X12: [run(canvas, delta_t)] with [MAX_FRAMES >= 0].  Its [delta_t] is
    only the pause between two turns: every turn updates the universe with
    the default time step.  When every call of Tk and of [sleep] returns,
    [run] ends after [MAX_FRAMES + 1] turns of [loop], one more than the
    frame cap: it has called [update] that many times, or up to the call
    that raised, whose exception it raises too; when no call raised it has
    made [4 * MAX_FRAMES + 3] Tk calls and the canvas still holds the last
    frame, the three ovals of the universe before the last update, since
    the canvas is only cleared between turns.  When the first [sleep]
    raises, [run] raises after one turn, with one frame drawn and one
    update made.  When the first Tk call raises, [run] raises with nothing
    drawn and the universe not updated. *)
Theorem run_makes_one_turn_more :
  forall (N : Number) (tk : nat -> bool) (sleep : Z -> num -> bool)
         (fuel : nat) (max_frames : Z) (canvas : Canvas) (delta_t : num)
         (u : Universe),
    nis_zero (lit 2) = false ->
    (0 <= max_frames)%Z ->
    Z.to_nat max_frames < fuel ->
    let n := Z.to_nat max_frames in
    let oval o' p rad :=
      create_oval (as_tuple (BBox_add (bbox (mkCircle p rad)) o')) in
    ((forall k, tk k = true) ->
     (forall k, sleep k delta_t = true) ->
     exists canvas' calls,
       run tk sleep fuel max_frames canvas delta_t u
       = (canvas', calls, fst (updates (S n) DEFAULT_DELTA_T u),
          Some (of_result (snd (updates (S n) DEFAULT_DELTA_T u)))) /\
       (snd (updates (S n) DEFAULT_DELTA_T u) = Ok tt ->
        let u_last := fst (updates n DEFAULT_DELTA_T u) in
        let o' := view canvas u_last in
        calls = 4 * n + 3 /\
        canvas'
        = mkCanvas (w canvas) (h canvas) o'
            ((if n =? 0 then items canvas else [])
             ++ [oval o' (yellow_p u_last) (yellow_r u_last);
                 oval o' (blue_p u_last) (blue_r u_last);
                 oval o' (white_p u_last) (white_r u_last)]))) /\
    ((0 < max_frames)%Z ->
     tk 0 = true -> tk 1 = true -> tk 2 = true ->
     snd (update DEFAULT_DELTA_T u) = Ok tt ->
     sleep 1%Z delta_t = false ->
     let o' := view canvas u in
     run tk sleep fuel max_frames canvas delta_t u
     = (mkCanvas (w canvas) (h canvas) o'
          (items canvas ++ [oval o' (yellow_p u) (yellow_r u);
                            oval o' (blue_p u) (blue_r u);
                            oval o' (white_p u) (white_r u)]),
        3, fst (update DEFAULT_DELTA_T u), Some (Raises of_sleep))) /\
    (tk 0 = false ->
     run tk sleep fuel max_frames canvas delta_t u
     = (mkCanvas (w canvas) (h canvas) (view canvas u) (items canvas),
        1, u, Some (Raises of_tk))).
Proof.
  intros N tk sleep fuel max_frames canvas delta_t u H2 Hmax Hfuel n oval.
  split; [|split].
  - intros Htk Hsleep.
    destruct (run_from_spec tk sleep delta_t n fuel max_frames canvas 0 0%Z
                u H2 Htk Hsleep ltac:(subst n; lia) Hfuel)
      as (canvas' & calls & Hrun & Hcanvas).
    exists canvas', calls. split; [exact Hrun|].
    intros Hok. destruct (Hcanvas Hok) as [Hcalls Hc]. cbv zeta.
    split; [exact Hcalls|]. rewrite Hc. reflexivity.
  - intros Hpos Htk0 Htk1 Htk2 Hok Hsleep. cbv zeta.
    destruct fuel as [|fuel]; [lia|].
    unfold run. cbn [run_from].
    rewrite (loop_frame tk _ _ _ _ _ H2).
    + rewrite Hok.
      replace (0 <? max_frames)%Z with true
        by (symmetry; apply Z.ltb_lt; lia).
      cbv zeta. change (0 + 1)%Z with 1%Z. rewrite Hsleep. reflexivity.
    + intros k Hk.
      destruct k as [|[|[|k]]]; [assumption|assumption|assumption|lia].
  - intros Htk0. destruct fuel as [|fuel]; [lia|].
    unfold run. cbn [run_from].
    rewrite (loop_first_call_raises tk _ _ _ _ _ H2 Htk0). reflexivity.
Qed.

Lemma run_makes_one_turn_more_witness :
  let canvas := @mkCanvas Binary64.number 800%float 600%float
                  (@mkVector Binary64.number 400%float 300%float) [] in
  let u := OnBinary64.universe in
  let tk (k : nat) := true in
  let sleep (k : Z) (d : @num Binary64.number) := nleb (lit 0) d in
  @MAX_FRAMES Binary64.number = Some 2400%Z /\
  (exists canvas',
      run tk sleep 2401 2400 canvas DEFAULT_DELTA_T u
      = (canvas', 4 * 2400 + 3, fst (updates 2401 DEFAULT_DELTA_T u),
         Some (Returns tt)) /\
      length (items canvas') = 3) /\
  snd (fst (run tk sleep 2401 2400 canvas (-1)%float u))
  = fst (update DEFAULT_DELTA_T u) /\
  snd (run tk sleep 2401 2400 canvas (-1)%float u) = Some (Raises of_sleep).
Proof.
  intros canvas u tk sleep. split; [vm_compute; reflexivity|].
  assert (Hok : snd (updates 2401 DEFAULT_DELTA_T u) = Ok tt)
    by (vm_compute; reflexivity).
  assert (H2 : @nis_zero Binary64.number (lit 2) = false)
    by (vm_compute; reflexivity).
  assert (Hfuel : Z.to_nat 2400 < 2401)
    by (apply Nat.ltb_lt; vm_compute; reflexivity).
  split.
  - destruct (proj1 (run_makes_one_turn_more Binary64.number tk sleep 2401
                       2400 canvas DEFAULT_DELTA_T u H2 ltac:(lia) Hfuel))
      as (canvas' & calls & Hrun & Hcanvas).
    + reflexivity.
    + intros k. vm_compute. reflexivity.
    + change (S (Z.to_nat 2400)) with 2401 in Hrun, Hcanvas.
      destruct (Hcanvas Hok) as [Hcalls Hc].
      exists canvas'. rewrite Hok in Hrun. rewrite Hcalls in Hrun.
      split; [exact Hrun|]. rewrite Hc. reflexivity.
  - pose proof (proj1 (proj2 (run_makes_one_turn_more Binary64.number tk
                                sleep 2401 2400 canvas (-1)%float u H2
                                ltac:(lia) Hfuel))) as Hraise.
    cbv zeta in Hraise. rewrite Hraise.
    + split; reflexivity.
    + lia.
    + reflexivity.
    + reflexivity.
    + reflexivity.
    + vm_compute. reflexivity.
    + vm_compute. reflexivity.
Defined.

(** ** Exact arithmetic: magnitudes and angular momentum *)

(** X13: on binary64 a vector with finite coordinates minus itself is the
    zero vector, bit for bit. *)
Theorem finite_vector_minus_itself :
  forall p : @Vector Binary64.number,
    PrimFloat.is_finite (x p) = true ->
    PrimFloat.is_finite (y p) = true ->
    Vector_sub p p = mkVector (lit 0) (lit 0).
Proof.
  intros p Hx Hy. unfold Vector_sub. cbn [nsub Binary64.number].
  now rewrite (float_sub_self _ Hx), (float_sub_self _ Hy).
Qed.

Lemma finite_vector_minus_itself_witness :
  let p := @mkVector Binary64.number 200%float (-7.905694150420949)%float in
  Vector_sub p p = mkVector (lit 0) (lit 0).
Proof.
  intros p. apply finite_vector_minus_itself; vm_compute; reflexivity.
Defined.

Lemma sqrt_scaled (c s : R) :
  (0 <= s)%R -> sqrt (c * c * s) = (Rabs c * sqrt s)%R.
Proof.
  intros Hs. rewrite sqrt_mult by nra.
  f_equal. exact (sqrt_Rsqr_abs c).
Qed.

Lemma sum_of_squares_zero (a b : R) :
  (a * a + b * b)%R = 0%R -> a = 0%R /\ b = 0%R.
Proof. intros H. split; nra. Qed.

(** X14: in exact arithmetic [abs(v)] is never negative, is zero only for
    the zero vector, and scales with the vector:
    [abs(v * c) = |c| * abs(v)]. *)
Theorem exact_magnitude :
  forall (v : @Vector Exact.number) (c : @num Exact.number),
    (0 <= Vector_abs v)%R /\
    (Vector_abs v = 0%R <-> v = mkVector (lit 0) (lit 0)) /\
    Vector_abs (Vector_mul v c) = (Rabs c * Vector_abs v)%R /\
    Vector_abs (Vector_rmul v c) = (Rabs c * Vector_abs v)%R.
Proof.
  intros [vx vy] c. unfold Vector_abs, Vector_rmul, Vector_mul.
  cbn [x y nadd nmul pow_half lit Exact.number].
  assert (Hs : (0 <= vx * vx + vy * vy)%R) by nra.
  assert (Hscale : sqrt (c * vx * (c * vx) + c * vy * (c * vy))
                   = (Rabs c * sqrt (vx * vx + vy * vy))%R).
  { rewrite <- (sqrt_scaled c _ Hs). f_equal. ring. }
  split; [apply sqrt_pos|]. split; [|split; exact Hscale].
  split.
  - intros H. apply sqrt_eq_0 in H; [|exact Hs].
    apply sum_of_squares_zero in H as [-> ->]. reflexivity.
  - intros [= -> ->]. replace (0 * 0 + 0 * 0)%R with 0%R by ring.
    apply sqrt_0.
Qed.




